(** * MiniVectorDatabase: the storage and query engine of VectorDatabase.cpp

    A shallow embedding of [class VectorDatabase]: the four distance
    computations, insert / insert_batch / remove / clear, the top-k and the
    radius search, and the binary save / load codec, followed by the
    properties of the specification that were checked against them.

    Conventions of the embedding.
    - [size_t] is the 64-bit unsigned integer of the platform, held in [Z];
      the two places where the source computes with it
      ([vectors_.size() + vectors.size()] and [dimension_ * sizeof(float)])
      wrap modulo 2^64.  Integers are stored little-endian.
    - [float] is IEEE-754 binary32, held as its 32-bit pattern; arithmetic
      decodes to [spec_float], computes with the correctly rounded
      operations of [SpecFloat] at precision 24 and re-encodes (strict
      single-precision evaluation, no fused multiply-add).
    - [std::unordered_map] is the list of its entries in iteration order;
      where a new key lands in that order is the table's business and is a
      parameter ([Layout]).
    - The mutex is not modelled: every operation holds it from start to end,
      so operations are the atomic state transformers given here.
    - Memory is unbounded: no allocation fails.  Console output is left
      out. *)

From Stdlib Require Import ZArith String Ascii Bool Lia List.
From Stdlib Require Import Permutation Sorted.
From Stdlib Require Import Floats.SpecFloat.
From Stdlib Require DecimalString DecimalN DecimalPos OrderedTypeEx.
From coqutil Require Import Byte Word.LittleEndianList.
Import ListNotations.
Local Open Scope Z_scope.

(** ** Machine integers *)

Definition size_t_modulus : Z := 2 ^ 64.
Definition size_t_wrap (z : Z) : Z := z mod size_t_modulus.
Definition size_t_add (a b : Z) : Z := size_t_wrap (a + b).
Definition size_t_mul (a b : Z) : Z := size_t_wrap (a * b).
Definition sizeof_size_t : nat := 8.
Definition sizeof_float : nat := 4.

(** ** IEEE-754 binary32 *)

Module Float32.
Definition prec : Z := 24.
Definition emax : Z := 128.

(** A [float] is its object representation read as a 32-bit integer. *)
Definition float : Type := Z.

Definition sign_bit (s : bool) : Z := if s then 0x80000000 else 0.

Definition decode (b : float) : spec_float :=
  let s := Z.testbit b 31 in
  let e := Z.land (Z.shiftr b 23) 0xFF in
  let m := Z.land b 0x7FFFFF in
  if e =? 0 then
    if m =? 0 then S754_zero s else S754_finite s (Z.to_pos m) (-149)
  else if e =? 0xFF then
    if m =? 0 then S754_infinity s else S754_nan
  else S754_finite s (Z.to_pos (Z.lor m 0x800000)) (e - 150).

(** Results that are NaN are encoded as the quiet NaN 0x7FC00000; which NaN
    the hardware produces is not observable through the comparisons the
    program makes. *)
Definition encode (x : spec_float) : float :=
  match x with
  | S754_zero s => sign_bit s
  | S754_infinity s => Z.lor (sign_bit s) 0x7F800000
  | S754_nan => 0x7FC00000
  | S754_finite s m e =>
      if Zpos m <? 0x800000 then Z.lor (sign_bit s) (Zpos m)
      else Z.lor (sign_bit s)
             (Z.lor (Z.shiftl (e + 150) 23) (Z.land (Zpos m) 0x7FFFFF))
  end.

Definition fadd (a b : float) : float :=
  encode (SFadd prec emax (decode a) (decode b)).
Definition fsub (a b : float) : float :=
  encode (SFsub prec emax (decode a) (decode b)).
Definition fmul (a b : float) : float :=
  encode (SFmul prec emax (decode a) (decode b)).
Definition fdiv (a b : float) : float :=
  encode (SFdiv prec emax (decode a) (decode b)).
Definition fsqrt (a : float) : float := encode (SFsqrt prec emax (decode a)).
Definition fabs (a : float) : float := encode (SFabs (decode a)).
Definition fneg (a : float) : float := encode (SFopp (decode a)).

(** [a < b], [a <= b], [a > b], [a == b] *)
Definition flt (a b : float) : bool := SFltb (decode a) (decode b).
Definition fle (a b : float) : bool := SFleb (decode a) (decode b).
Definition fgt (a b : float) : bool := SFltb (decode b) (decode a).
Definition feq (a b : float) : bool := SFeqb (decode a) (decode b).

Definition is_nan (a : float) : bool :=
  match decode a with S754_nan => true | _ => false end.

(** [0.0f], [1.0f] and [std::numeric_limits<float>::max()] *)
Definition zero : float := 0.
Definition one : float := 0x3F800000.
Definition FLT_MAX : float := 0x7F7FFFFF.

#[global] Arguments decode : simpl never.
#[global] Arguments encode : simpl never.
#[global] Arguments fadd : simpl never.
#[global] Arguments fsub : simpl never.
#[global] Arguments fmul : simpl never.
#[global] Arguments fdiv : simpl never.
#[global] Arguments fsqrt : simpl never.
#[global] Arguments fabs : simpl never.
#[global] Arguments fneg : simpl never.
#[global] Arguments flt : simpl never.
#[global] Arguments fle : simpl never.
#[global] Arguments fgt : simpl never.
#[global] Arguments feq : simpl never.
#[global] Arguments is_nan : simpl never.
End Float32.
Import Float32.

(** ** Data model *)

Inductive DistanceMetric := EUCLIDEAN | COSINE | MANHATTAN | DOT_PRODUCT.
Inductive IndexType := LINEAR | KD_TREE | HASH_TABLE.

Record VectorDatabaseConfig := {
  distance_metric : DistanceMetric;
  index_type : IndexType;
  max_vectors : Z;
  thread_count : Z
}.

(** [std::vector<float>] *)
Definition vec : Type := list float.

Record SearchResult := {
  sr_id : string;
  sr_distance : float;
  sr_vector : vec
}.

(** [bool operator>(const SearchResult& other) const] *)
Definition sr_gt (a other : SearchResult) : bool :=
  fgt (sr_distance a) (sr_distance other).

(** The lambda handed to [std::sort] in both searches. *)
Definition by_distance (a b : SearchResult) : bool :=
  flt (sr_distance a) (sr_distance b).

(** ** std::unordered_map<std::string, std::vector<float>>

    The entries in iteration order, keys pairwise distinct. *)

Definition unordered_map : Type := list (string * vec).

Definition um_keys (m : unordered_map) : list string := map fst m.
Definition um_wf (m : unordered_map) : Prop := NoDup (um_keys m).
Definition um_size (m : unordered_map) : Z := Z.of_nat (length m).

Fixpoint um_find (id : string) (m : unordered_map) : option vec :=
  match m with
  | [] => None
  | (k, v) :: m' => if String.eqb k id then Some v else um_find id m'
  end.

(** Assignment through [operator[]] to a key that is present: the node keeps
    its place. *)
Fixpoint um_replace (id : string) (v : vec) (m : unordered_map)
  : unordered_map :=
  match m with
  | [] => []
  | (k, w) :: m' =>
      if String.eqb k id then (k, v) :: m' else (k, w) :: um_replace id v m'
  end.

(** [erase(key)]: the number of nodes removed and the remaining table. *)
Fixpoint um_erase (id : string) (m : unordered_map) : Z * unordered_map :=
  match m with
  | [] => (0, [])
  | (k, w) :: m' =>
      if String.eqb k id then (1, m')
      else let '(n, r) := um_erase id m' in (n, (k, w) :: r)
  end.

(** Where a new node appears in iteration order depends on the hash values and
    the bucket array, and a rehash may move every node.  A [Layout] is any
    such policy: it returns the entries it is given, in some order. *)
Record Layout := {
  layout : unordered_map -> unordered_map;
  layout_perm : forall m, Permutation (layout m) m
}.

(** A new node linked at the head of the node list. *)
Definition front_layout : Layout :=
  {| layout := fun m => m; layout_perm := fun m => Permutation_refl m |}.

(** [m[id] = v] *)
Definition um_assign (L : Layout) (id : string) (v : vec) (m : unordered_map)
  : unordered_map :=
  match um_find id m with
  | Some _ => um_replace id v m
  | None => layout L ((id, v) :: m)
  end.

(** ** std::priority_queue<SearchResult, std::vector<SearchResult>,
       std::greater<SearchResult>>

    With [std::greater] the top is an element that is not [>] any other: one
    of least distance.  The queue is held as the list of its elements in the
    order in which [top()]/[pop()] would deliver them; an element is placed
    behind those it is [>] than.  Which of several elements of equal distance
    is delivered first is left open by the standard; no statement below
    depends on it. *)

Definition priority_queue : Type := list SearchResult.

Fixpoint pq_push (x : SearchResult) (q : priority_queue) : priority_queue :=
  match q with
  | [] => [x]
  | y :: q' => if sr_gt x y then y :: pq_push x q' else x :: q
  end.

Definition pq_top (q : priority_queue) : option SearchResult := hd_error q.
Definition pq_pop (q : priority_queue) : priority_queue := tl q.
Definition pq_size (q : priority_queue) : Z := Z.of_nat (length q).

(** [while (!pq.empty()) { results.push_back(pq.top()); pq.pop(); }] *)
Fixpoint pq_drain (q : priority_queue) : list SearchResult :=
  match q with
  | [] => []
  | t :: q' => t :: pq_drain q'
  end.

(** ** std::sort with the comparator [by_distance]

    The standard fixes the result up to the order of equivalent elements;
    the model is a stable insertion sort. *)

Fixpoint sort_insert (x : SearchResult) (l : list SearchResult)
  : list SearchResult :=
  match l with
  | [] => [x]
  | y :: l' => if by_distance y x then y :: sort_insert x l' else x :: l
  end.

Definition std_sort (l : list SearchResult) : list SearchResult :=
  fold_right sort_insert [] l.

(** ** File streams *)

(** [std::ifstream]: the bytes not yet consumed and [good()]. *)
Record ifstream := { in_rest : list byte; in_good : bool }.

(** [file.read(buf, n)]: on a stream that is not good nothing is stored; else
    the available bytes, up to [n], overwrite the start of [buf], and the
    stream fails when fewer than [n] were available. *)
Definition ifstream_read (n : nat) (buf : list byte) (s : ifstream)
  : list byte * ifstream :=
  if in_good s then
    let got := firstn n (in_rest s) in
    (got ++ skipn (length got) buf,
     {| in_rest := skipn n (in_rest s);
        in_good := (n <=? length (in_rest s))%nat |})
  else (buf, s).

(** [std::ofstream]: the bytes accepted so far, [good()], and how many more
    bytes the medium takes. *)
Record ofstream := { out_bytes : list byte; out_good : bool; out_room : nat }.

Definition ofstream_write (bs : list byte) (s : ofstream) : ofstream :=
  if out_good s then
    if (length bs <=? out_room s)%nat then
      {| out_bytes := out_bytes s ++ bs; out_good := true;
         out_room := out_room s - length bs |}
    else
      {| out_bytes := out_bytes s ++ firstn (out_room s) bs;
         out_good := false; out_room := 0 |}
  else s.

(** The bytes of a [size_t], of an id, and of the floats of a vector. *)
Definition size_t_bytes (z : Z) : list byte := le_split sizeof_size_t z.
Definition vec_bytes (v : vec) : list byte :=
  flat_map (le_split sizeof_float) v.

Fixpoint vec_of_bytes (n : nat) (bs : list byte) : vec :=
  match n with
  | O => []
  | S n' => le_combine (firstn sizeof_float bs)
            :: vec_of_bytes n' (skipn sizeof_float bs)
  end.

(** What the storage of the locals that [load] declares without an
    initialiser holds before the stream writes to them. *)
Record uninitialised := {
  u_file_dimension : Z;
  u_vector_count : Z;
  u_id_length : nat -> Z
}.

(** ** class VectorDatabase *)

Record VectorDatabase := {
  dimension_ : Z;
  config_ : VectorDatabaseConfig;
  vectors_ : unordered_map
}.

Definition with_vectors (db : VectorDatabase) (m : unordered_map)
  : VectorDatabase :=
  {| dimension_ := dimension_ db; config_ := config_ db; vectors_ := m |}.

(** The constructors: a dimension of zero throws. *)
Definition VectorDatabase_new (dimension : Z) (config : VectorDatabaseConfig)
  : option VectorDatabase :=
  if dimension =? 0 then None
  else Some {| dimension_ := dimension; config_ := config; vectors_ := [] |}.

(** [VectorDatabaseConfig() = default]; the thread count is that of the
    hardware and nothing in the class reads it. *)
Definition default_config : VectorDatabaseConfig :=
  {| distance_metric := EUCLIDEAN; index_type := LINEAR;
     max_vectors := 100000; thread_count := 1 |}.

(** *** Distance computations *)

Definition same_size (a b : vec) : bool := (length a =? length b)%nat.

Fixpoint euclidean_loop (sum : float) (a b : vec) : float :=
  match a, b with
  | x :: a', y :: b' =>
      let diff := fsub x y in
      euclidean_loop (fadd sum (fmul diff diff)) a' b'
  | _, _ => sum
  end.

Definition calculateEuclideanDistance (a b : vec) : float :=
  if negb (same_size a b) then FLT_MAX
  else fsqrt (euclidean_loop zero a b).

Fixpoint cosine_loop (acc : float * float * float) (a b : vec)
  : float * float * float :=
  match a, b with
  | x :: a', y :: b' =>
      let '(dot_product, norm_a, norm_b) := acc in
      cosine_loop (fadd dot_product (fmul x y),
                   fadd norm_a (fmul x x),
                   fadd norm_b (fmul y y)) a' b'
  | _, _ => acc
  end.

Definition calculateCosineDistance (a b : vec) : float :=
  if negb (same_size a b) then FLT_MAX
  else
    let '(dot_product, norm_a, norm_b) := cosine_loop (zero, zero, zero) a b in
    if feq norm_a zero || feq norm_b zero then one
    else
      let cosine_similarity :=
        fdiv dot_product (fmul (fsqrt norm_a) (fsqrt norm_b)) in
      fsub one cosine_similarity.

Fixpoint manhattan_loop (sum : float) (a b : vec) : float :=
  match a, b with
  | x :: a', y :: b' => manhattan_loop (fadd sum (fabs (fsub x y))) a' b'
  | _, _ => sum
  end.

Definition calculateManhattanDistance (a b : vec) : float :=
  if negb (same_size a b) then FLT_MAX
  else manhattan_loop zero a b.

Fixpoint dot_product_loop (dot_product : float) (a b : vec) : float :=
  match a, b with
  | x :: a', y :: b' => dot_product_loop (fadd dot_product (fmul x y)) a' b'
  | _, _ => dot_product
  end.

Definition calculateDotProductDistance (a b : vec) : float :=
  if negb (same_size a b) then FLT_MAX
  else fneg (dot_product_loop zero a b).

Definition calculateDistance (db : VectorDatabase) (a b : vec) : float :=
  match distance_metric (config_ db) with
  | EUCLIDEAN => calculateEuclideanDistance a b
  | COSINE => calculateCosineDistance a b
  | MANHATTAN => calculateManhattanDistance a b
  | DOT_PRODUCT => calculateDotProductDistance a b
  end.

Arguments calculateDistance : simpl never.

Definition validateVector (db : VectorDatabase) (vector : vec) : bool :=
  Z.of_nat (length vector) =? dimension_ db.

(** [id.empty()] *)
Definition string_empty (s : string) : bool := (String.length s =? 0)%nat.

(** *** Accessors *)

Definition size (db : VectorDatabase) : Z := um_size (vectors_ db).
Definition dimension (db : VectorDatabase) : Z := dimension_ db.

Definition get_vector (db : VectorDatabase) (id : string) : vec :=
  match um_find id (vectors_ db) with
  | Some v => v
  | None => []
  end.

Definition exists_ (db : VectorDatabase) (id : string) : bool :=
  match um_find id (vectors_ db) with
  | Some _ => true
  | None => false
  end.

Definition get_all_ids (db : VectorDatabase) : list string :=
  um_keys (vectors_ db).

(** *** Mutators that need no layout *)

Definition remove (db : VectorDatabase) (id : string)
  : bool * VectorDatabase :=
  let '(n, m) := um_erase id (vectors_ db) in (0 <? n, with_vectors db m).

Definition clear (db : VectorDatabase) : VectorDatabase := with_vectors db [].

(** *** insert and insert_batch *)

Definition insert (L : Layout) (db : VectorDatabase) (id : string)
  (vector : vec) : bool * VectorDatabase :=
  if negb (validateVector db vector) then (false, db)
  else if string_empty id then (false, db)
  else if size db >=? max_vectors (config_ db) then (false, db)
  else (true, with_vectors db (um_assign L id vector (vectors_ db))).

(** [std::map<std::string, std::vector<float>>]: the pairs in key order. *)
Definition std_map : Type := list (string * vec).

Definition batch_pair_invalid (db : VectorDatabase) (entry : string * vec)
  : bool :=
  negb (validateVector db (snd entry)) || string_empty (fst entry).

Definition insert_batch (L : Layout) (db : VectorDatabase) (vectors : std_map)
  : bool * VectorDatabase :=
  if existsb (batch_pair_invalid db) vectors then (false, db)
  else if size_t_add (size db) (Z.of_nat (length vectors))
          >? max_vectors (config_ db)
  then (false, db)
  else
    (true,
     with_vectors db
       (fold_left (fun m entry => um_assign L (fst entry) (snd entry) m)
          vectors (vectors_ db))).

(** *** search *)

(** A call either returns, or reads [top()] of an empty priority queue, which
    the language leaves undefined. *)
Inductive outcome (A : Type) : Type :=
| Returned (a : A)
| TopOfEmptyQueue.
Arguments Returned {A} a.
Arguments TopOfEmptyQueue {A}.

Fixpoint search_scan (db : VectorDatabase) (query : vec) (k : Z)
  (m : unordered_map) (pq : priority_queue) : outcome priority_queue :=
  match m with
  | [] => Returned pq
  | entry :: m' =>
      let distance := calculateDistance db query (snd entry) in
      let candidate :=
        {| sr_id := fst entry; sr_distance := distance;
           sr_vector := snd entry |} in
      if pq_size pq <? k then
        search_scan db query k m' (pq_push candidate pq)
      else
        match pq_top pq with
        | None => TopOfEmptyQueue
        | Some top =>
            if flt distance (sr_distance top) then
              search_scan db query k m' (pq_push candidate (pq_pop pq))
            else search_scan db query k m' pq
        end
  end.

Definition search (db : VectorDatabase) (query : vec) (k : Z)
  : outcome (list SearchResult) :=
  if negb (validateVector db query) then Returned []
  else
    match vectors_ db with
    | [] => Returned []
    | _ :: _ =>
        match search_scan db query k (vectors_ db) [] with
        | Returned pq => Returned (std_sort (pq_drain pq))
        | TopOfEmptyQueue => TopOfEmptyQueue
        end
    end.

(** *** search_radius *)

Fixpoint radius_scan (db : VectorDatabase) (query : vec) (radius : float)
  (m : unordered_map) : list SearchResult :=
  match m with
  | [] => []
  | entry :: m' =>
      let distance := calculateDistance db query (snd entry) in
      if fle distance radius then
        {| sr_id := fst entry; sr_distance := distance; sr_vector := snd entry |}
        :: radius_scan db query radius m'
      else radius_scan db query radius m'
  end.

Definition search_radius (db : VectorDatabase) (query : vec) (radius : float)
  : list SearchResult :=
  if negb (validateVector db query) then []
  else std_sort (radius_scan db query radius (vectors_ db)).

(** *** save

    [medium] is [None] when the file cannot be opened for writing, and
    otherwise the number of bytes the medium accepts.  The result is
    [file.good()] together with the content of the file when it was opened.

    A record is written as the length of its id, the bytes of the id, and
    [dimension_ * sizeof(float)] bytes taken from the start of the vector's
    storage; stored vectors have [dimension_] floats, so these are the bytes
    of the vector. *)

Definition save_record (dim : Z) (f : ofstream) (entry : string * vec)
  : ofstream :=
  let id_length := Z.of_nat (String.length (fst entry)) in
  let f1 := ofstream_write (size_t_bytes id_length) f in
  let f2 := ofstream_write (list_byte_of_string (fst entry)) f1 in
  ofstream_write
    (firstn (Z.to_nat (size_t_mul dim (Z.of_nat sizeof_float)))
       (vec_bytes (snd entry))) f2.

Definition save (db : VectorDatabase) (medium : option nat)
  : bool * option (list byte) :=
  match medium with
  | None => (false, None)
  | Some room =>
      let file := {| out_bytes := []; out_good := true; out_room := room |} in
      let file := ofstream_write (size_t_bytes (dimension_ db)) file in
      let vector_count := size db in
      let file := ofstream_write (size_t_bytes vector_count) file in
      let file := fold_left (save_record (dimension_ db)) (vectors_ db) file in
      (out_good file, Some (out_bytes file))
  end.

(** *** load

    [file] is [None] when the path cannot be opened for reading.

    The loop body runs [vector_count] times whatever the state of the stream:
    once a read has failed, the later reads store nothing, the id is
    [id_length] NUL characters with [id_length] whatever its storage held,
    and the vector is [dimension_] zeros. *)

Definition read_size_t (before : Z) (s : ifstream) : Z * ifstream :=
  let '(bs, s') := ifstream_read sizeof_size_t (size_t_bytes before) s in
  (le_combine bs, s').

Fixpoint load_records (L : Layout) (dim : Z) (u : uninitialised)
  (count : nat) (i : nat) (s : ifstream) (m : unordered_map)
  : ifstream * unordered_map :=
  match count with
  | O => (s, m)
  | S count' =>
      let '(id_length, s1) := read_size_t (u_id_length u i) s in
      let '(id_bytes, s2) :=
        ifstream_read (Z.to_nat id_length)
          (repeat Byte.x00 (Z.to_nat id_length)) s1 in
      let id := string_of_list_byte id_bytes in
      let '(vector_bytes, s3) :=
        ifstream_read (Z.to_nat (size_t_mul dim (Z.of_nat sizeof_float)))
          (vec_bytes (repeat zero (Z.to_nat dim))) s2 in
      let vector := vec_of_bytes (Z.to_nat dim) vector_bytes in
      load_records L dim u count' (S i) s3 (um_assign L id vector m)
  end.

Definition load (L : Layout) (u : uninitialised) (db : VectorDatabase)
  (file : option (list byte)) : bool * VectorDatabase :=
  match file with
  | None => (false, db)
  | Some content =>
      let s := {| in_rest := content; in_good := true |} in
      let '(file_dimension, s) := read_size_t (u_file_dimension u) s in
      if negb (file_dimension =? dimension_ db) then (false, db)
      else
        let '(vector_count, s) := read_size_t (u_vector_count u) s in
        let '(s, m) :=
          load_records L (dimension_ db) u (Z.to_nat vector_count) O s [] in
        (in_good s, with_vectors db m)
  end.

(** ** Notions used in the statements *)

(** Non-decreasing distance between neighbours. *)
Definition distance_le (a b : SearchResult) : Prop :=
  fle (sr_distance a) (sr_distance b) = true.

Definition ordered (r : SearchResult) : Prop := is_nan (sr_distance r) = false.

Definition to_result (db : VectorDatabase) (query : vec) (entry : string * vec)
  : SearchResult :=
  {| sr_id := fst entry;
     sr_distance := calculateDistance db query (snd entry);
     sr_vector := snd entry |}.

Definition within (db : VectorDatabase) (query : vec) (radius : float)
  (entry : string * vec) : bool :=
  fle (calculateDistance db query (snd entry)) radius.

(** A store of dimension 1 that holds its maximum of one record. *)
Definition two : float := 0x40000000.
Definition db_full : VectorDatabase :=
  {| dimension_ := 1;
     config_ := {| distance_metric := EUCLIDEAN; index_type := LINEAR;
                   max_vectors := 1; thread_count := 1 |};
     vectors_ := [("a"%string, [one])] |}.

(** Every pair of the batch has a non-empty id and a vector of the store's
    dimension. *)
Definition batch_valid (db : VectorDatabase) (batch : std_map) : Prop :=
  Forall (fun e => fst e <> EmptyString
                   /\ Z.of_nat (length (snd e)) = dimension_ db) batch.

Definition batch_invalid (db : VectorDatabase) (batch : std_map) : Prop :=
  Exists (fun e => fst e = EmptyString
                   \/ Z.of_nat (length (snd e)) <> dimension_ db) batch.

(** The total the specification speaks of: the existing entries whose ids are
    not in the batch, plus all batch entries. *)
Definition in_batch (batch : std_map) (id : string) : bool :=
  existsb (String.eqb id) (map fst batch).

Definition post_insert_size (db : VectorDatabase) (batch : std_map) : Z :=
  Z.of_nat (length (filter (fun e => negb (in_batch batch (fst e)))
                      (vectors_ db)))
  + Z.of_nat (length batch).

(** The scenario of the specification: dimension 3, Euclidean metric, the
    records a = (0,0,0), b = (1,0,0), c = (2,0,0), met by the scan in the
    order c, b, a. *)
Definition db_abc : VectorDatabase :=
  {| dimension_ := 3;
     config_ := default_config;
     vectors_ := [("c"%string, [two; zero; zero]);
                  ("b"%string, [one; zero; zero]);
                  ("a"%string, [zero; zero; zero])] |}.

Definition origin : vec := [zero; zero; zero].

(** What every object state of the program satisfies by construction: the
    dimension is a positive [size_t]; keys are distinct; each stored vector
    has the store's dimension, occupies fewer than 2^64 bytes and consists of
    32-bit patterns; id lengths and the record count are [size_t] values. *)
Definition float_wf (x : float) : Prop := 0 <= x < 2 ^ 32.

Definition entry_wf (dim : Z) (e : string * vec) : Prop :=
  Z.of_nat (length (snd e)) = dim
  /\ Z.of_nat (sizeof_float * length (snd e)) < size_t_modulus
  /\ Forall float_wf (snd e)
  /\ Z.of_nat (String.length (fst e)) < size_t_modulus.

Record db_wf (db : VectorDatabase) : Prop := {
  wf_dimension : 0 < dimension_ db < size_t_modulus;
  wf_keys : um_wf (vectors_ db);
  wf_entries : Forall (entry_wf (dimension_ db)) (vectors_ db);
  wf_size : size db < size_t_modulus
}.

(** The part of it that the operations maintain themselves. *)
Definition entry_ok (dim : Z) (e : string * vec) : Prop :=
  Z.of_nat (length (snd e)) = dim.

Definition invariant (db : VectorDatabase) : Prop :=
  0 < dimension_ db
  /\ um_wf (vectors_ db)
  /\ Forall (entry_ok (dimension_ db)) (vectors_ db).

(** The bytes of one record and of a whole store, in the layout of the file. *)
Definition record_bytes (dim : Z) (e : string * vec) : list byte :=
  size_t_bytes (Z.of_nat (String.length (fst e)))
  ++ list_byte_of_string (fst e)
  ++ firstn (Z.to_nat (size_t_mul dim (Z.of_nat sizeof_float)))
       (vec_bytes (snd e)).

Definition serialise (db : VectorDatabase) : list byte :=
  size_t_bytes (dimension_ db)
  ++ size_t_bytes (size db)
  ++ flat_map (record_bytes (dimension_ db)) (vectors_ db).

(** A store as its constructor leaves it. *)
Definition fresh (dimension : Z) (config : VectorDatabaseConfig)
  : VectorDatabase :=
  {| dimension_ := dimension; config_ := config; vectors_ := [] |}.

Definition no_junk : uninitialised :=
  {| u_file_dimension := 0; u_vector_count := 0; u_id_length := fun _ => 0 |}.

(** A file for dimension 1 that announces one record, gives its id "b", and
    ends before the vector. *)
Definition truncated_file : list byte :=
  size_t_bytes 1 ++ size_t_bytes 1
  ++ size_t_bytes 1 ++ list_byte_of_string "b".

(** A store of dimension 1 that may hold one record and holds none, and a
    store of the same dimension with two records, whose saved file is then
    loaded into the former. *)
Definition db_small : VectorDatabase :=
  fresh 1 {| distance_metric := EUCLIDEAN; index_type := LINEAR;
             max_vectors := 1; thread_count := 1 |}.

Definition db_two : VectorDatabase :=
  {| dimension_ := 1; config_ := default_config;
     vectors_ := [("a"%string, [one]); ("b"%string, [two])] |}.

(** ** Random numbers

    The generating functions of [VectorUtils] each own a function-local
    static engine, seeded from [std::random_device]: its state lives across
    calls and its first state is whatever the device gave.  A distribution
    object is built afresh by every call and may keep a state of its own
    between draws.  What a draw yields is left open: [dis(gen)] is some
    function of the two states. *)

Record RandomSource := {
  engine : Type;
  distribution : Type;
  uniform_real_distribution : float -> float -> distribution;
  normal_distribution : float -> float -> distribution;
  draw : distribution -> engine -> float * distribution * engine
}.

(** ** class VectorUtils: the deterministic operations *)

Module VectorUtils.

(** [vector[i] = dis(gen)] for [i] from 0 to [n - 1]. *)
Fixpoint random_fill (R : RandomSource) (n : nat) (dis : distribution R)
  (gen : engine R) : vec * engine R :=
  match n with
  | O => ([], gen)
  | S n' =>
      let '(x, dis', gen') := draw R dis gen in
      let '(rest, gen'') := random_fill R n' dis' gen' in
      (x :: rest, gen'')
  end.

Definition generateRandomVector (R : RandomSource) (dimension : Z)
  (min_val max_val : float) (gen : engine R) : vec * engine R :=
  random_fill R (Z.to_nat dimension)
    (uniform_real_distribution R min_val max_val) gen.

(** [vector[i] = dis(gen); norm += vector[i] * vector[i]]. *)
Fixpoint unit_fill (R : RandomSource) (n : nat) (dis : distribution R)
  (gen : engine R) (norm : float) : vec * float * engine R :=
  match n with
  | O => ([], norm, gen)
  | S n' =>
      let '(x, dis', gen') := draw R dis gen in
      let '(rest, norm', gen'') :=
        unit_fill R n' dis' gen' (fadd norm (fmul x x)) in
      (x :: rest, norm', gen'')
  end.

Definition generateRandomUnitVector (R : RandomSource) (dimension : Z)
  (gen : engine R) : vec * engine R :=
  let '(vector, norm, gen') :=
    unit_fill R (Z.to_nat dimension) (normal_distribution R zero one) gen zero
  in
  let norm := fsqrt norm in
  (if fgt norm zero then map (fun x => fdiv x norm) vector else vector, gen').

(** [vector[i] = center[i] + dis(gen)]. *)
Fixpoint gaussian_fill (R : RandomSource) (center : vec)
  (dis : distribution R) (gen : engine R) : vec * engine R :=
  match center with
  | [] => ([], gen)
  | c :: center' =>
      let '(x, dis', gen') := draw R dis gen in
      let '(rest, gen'') := gaussian_fill R center' dis' gen' in
      (fadd c x :: rest, gen'')
  end.

Definition generateGaussianVector (R : RandomSource) (center : vec)
  (std_dev : float) (gen : engine R) : vec * engine R :=
  gaussian_fill R center (normal_distribution R zero std_dev) gen.

Fixpoint magnitude_loop (sum : float) (vector : vec) : float :=
  match vector with
  | [] => sum
  | val :: rest => magnitude_loop (fadd sum (fmul val val)) rest
  end.

Definition calculateMagnitude (vector : vec) : float :=
  fsqrt (magnitude_loop zero vector).

Definition normalize (vector : vec) : vec :=
  let magnitude := calculateMagnitude vector in
  if feq magnitude zero then vector
  else map (fun x => fdiv x magnitude) vector.

Fixpoint add_loop (a b : vec) : vec :=
  match a, b with
  | x :: a', y :: b' => fadd x y :: add_loop a' b'
  | _, _ => []
  end.

(** [None] stands for the [std::invalid_argument] thrown on vectors of
    different sizes. *)
Definition add (a b : vec) : option vec :=
  if negb (same_size a b) then None else Some (add_loop a b).

Definition multiply (vector : vec) (scalar : float) : vec :=
  map (fun x => fmul x scalar) vector.

End VectorUtils.

(** ** Random test data

    The member functions that generate vectors of the store's dimension, and
    the two that fill the store with generated vectors.  The engine is
    passed in and handed back. *)

Definition minus_one : float := 0xBF800000.

Definition generateRandomVector (R : RandomSource) (db : VectorDatabase)
  (min_val max_val : float) (gen : engine R) : vec * engine R :=
  VectorUtils.generateRandomVector R (dimension_ db) min_val max_val gen.

Definition generateRandomUnitVector (R : RandomSource) (db : VectorDatabase)
  (gen : engine R) : vec * engine R :=
  VectorUtils.generateRandomUnitVector R (dimension_ db) gen.

(** [None] stands for the [std::invalid_argument] thrown on a center of the
    wrong dimension. *)
Definition generateGaussianVector (R : RandomSource) (db : VectorDatabase)
  (center : vec) (std_dev : float) (gen : engine R)
  : option (vec * engine R) :=
  if negb (Z.of_nat (length center) =? dimension_ db) then None
  else Some (VectorUtils.generateGaussianVector R center std_dev gen).

(** [std::to_string] of a [size_t]: its decimal digits. *)
Definition to_string (i : Z) : string :=
  DecimalString.NilZero.string_of_uint (N.to_uint (Z.to_N i)).

(** [batch[id] = vector] on a [std::map]: the entries are kept in the
    order of their keys ([std::less<std::string>], which compares the
    characters as unsigned bytes); an entry with the key is overwritten. *)
Fixpoint map_assign (id : string) (vector : vec) (m : std_map) : std_map :=
  match m with
  | [] => [(id, vector)]
  | (k, w) :: rest =>
      match String.compare id k with
      | Lt => (id, vector) :: m
      | Eq => (k, vector) :: rest
      | Gt => (k, w) :: map_assign id vector rest
      end
  end.

(** The ids the two functions make up. *)
Definition random_id (prefix : string) (i : Z) : string :=
  String.append prefix (String.append "_" (to_string i)).

Definition cluster_id (prefix : string) (c i : Z) : string :=
  String.append prefix
    (String.append "_"
       (String.append (to_string c) (String.append "_" (to_string i)))).

(** The loop of [insertRandomVectors], with [n] rounds to go at index [i]. *)
Fixpoint insertRandomVectors_loop (R : RandomSource) (db : VectorDatabase)
  (prefix : string) (n : nat) (i : Z) (batch : std_map) (gen : engine R)
  : std_map * engine R :=
  match n with
  | O => (batch, gen)
  | S n' =>
      let id := random_id prefix i in
      let '(vector, gen') := generateRandomVector R db minus_one one gen in
      insertRandomVectors_loop R db prefix n' (i + 1)
        (map_assign id vector batch) gen'
  end.

Definition insertRandomVectors (R : RandomSource) (L : Layout)
  (db : VectorDatabase) (count : Z) (prefix : string) (gen : engine R)
  : bool * VectorDatabase * engine R :=
  let '(batch, gen') :=
    insertRandomVectors_loop R db prefix (Z.to_nat count) 0 [] gen in
  let '(ok, db') := insert_batch L db batch in
  (ok, db', gen').

(** The inner loop of [insertClusteredVectors] for center number [c]; [None]
    is an exception on its way out. *)
Fixpoint cluster_loop (R : RandomSource) (db : VectorDatabase)
  (prefix : string) (std_dev : float) (c : Z) (center : vec)
  (n : nat) (i : Z) (batch : std_map) (gen : engine R)
  : option (std_map * engine R) :=
  match n with
  | O => Some (batch, gen)
  | S n' =>
      let id := cluster_id prefix c i in
      match generateGaussianVector R db center std_dev gen with
      | None => None
      | Some (vector, gen') =>
          cluster_loop R db prefix std_dev c center n' (i + 1)
            (map_assign id vector batch) gen'
      end
  end.

(** The outer loop: [Some (None, _)] is the early [return false] on a center
    of the wrong dimension, [Some (Some batch, _)] the batch to insert. *)
Fixpoint centers_loop (R : RandomSource) (db : VectorDatabase)
  (vectors_per_cluster : Z) (std_dev : float) (prefix : string)
  (centers : list vec) (c : Z) (batch : std_map) (gen : engine R)
  : option (option std_map * engine R) :=
  match centers with
  | [] => Some (Some batch, gen)
  | center :: centers' =>
      if negb (Z.of_nat (length center) =? dimension_ db)
      then Some (None, gen)
      else
        match cluster_loop R db prefix std_dev c center
                (Z.to_nat vectors_per_cluster) 0 batch gen with
        | None => None
        | Some (batch', gen') =>
            centers_loop R db vectors_per_cluster std_dev prefix centers'
              (c + 1) batch' gen'
        end
  end.

Definition insertClusteredVectors (R : RandomSource) (L : Layout)
  (db : VectorDatabase) (centers : list vec) (vectors_per_cluster : Z)
  (std_dev : float) (prefix : string) (gen : engine R)
  : option (bool * VectorDatabase * engine R) :=
  match centers_loop R db vectors_per_cluster std_dev prefix centers 0 []
          gen with
  | None => None
  | Some (None, gen') => Some (false, db, gen')
  | Some (Some batch, gen') =>
      let '(ok, db') := insert_batch L db batch in
      Some (ok, db', gen')
  end.

(** A source whose every draw is [0.0f], with a counting engine; used for
    instances. *)
Definition zero_source : RandomSource :=
  {| engine := Z;
     distribution := unit;
     uniform_real_distribution := fun _ _ => tt;
     normal_distribution := fun _ _ => tt;
     draw := fun dis gen => (zero, dis, gen + 1) |}.

(** ** Further notions used in the statements *)

(** The keys of a [std::map] are strictly increasing. *)
Definition map_sorted (m : std_map) : Prop :=
  StronglySorted (fun a b => String.compare a b = Lt) (map fst m).

(** What a batch entry must satisfy to be valid for a store. *)
Definition entry_valid (db : VectorDatabase) (e : string * vec) : Prop :=
  fst e <> EmptyString /\ Z.of_nat (length (snd e)) = dimension_ db.

(** [m] is [m0] after assignments under the ids [ids]. *)
Definition batch_extends (db : VectorDatabase) (ids : list string)
  (m0 m : std_map) : Prop :=
  (map_sorted m0 -> map_sorted m)
  /\ (Forall (entry_valid db) m0 -> Forall (entry_valid db) m)
  /\ (forall k, In k (map fst m) <-> In k ids \/ In k (map fst m0))
  /\ (NoDup ids -> (forall k, In k ids -> ~ In k (map fst m0)) ->
      length m = (length ids + length m0)%nat).

(** The ids [f i], [f (i + 1)], ..., [n] of them. *)
Fixpoint ids_from (f : Z -> string) (i : Z) (n : nat) : list string :=
  match n with
  | O => []
  | S n' => f i :: ids_from f (i + 1) n'
  end.

(** The ids of [insertClusteredVectors] for the centers numbered from [c]. *)
Fixpoint cluster_ids (prefix : string) (per : nat) (c : Z) (centers : list vec)
  : list string :=
  match centers with
  | [] => []
  | _ :: centers' =>
      ids_from (cluster_id prefix c) 0 per
      ++ cluster_ids prefix per (c + 1) centers'
  end.


(** Membership of an id in a list of ids, decided. *)
Definition id_mem (id : string) (ids : list string) : bool :=
  existsb (String.eqb id) ids.

(** The batch ids that the store does not hold yet. *)
Definition new_in_batch (db : VectorDatabase) (batch : std_map) : std_map :=
  filter (fun e => negb (exists_ db (fst e))) batch.

(** The mutating operations, as a caller may issue them one after the other:
    the store after a sequence of calls, results ignored. *)
Inductive mutation :=
| MInsert (id : string) (vector : vec)
| MInsertBatch (batch : std_map)
| MRemove (id : string)
| MClear
| MLoad (u : uninitialised) (file : option (list byte)).

Definition apply_mutation (L : Layout) (db : VectorDatabase) (op : mutation)
  : VectorDatabase :=
  match op with
  | MInsert id vector => snd (insert L db id vector)
  | MInsertBatch batch => snd (insert_batch L db batch)
  | MRemove id => snd (remove db id)
  | MClear => clear db
  | MLoad u file => snd (load L u db file)
  end.

Definition run (L : Layout) (ops : list mutation) (db : VectorDatabase)
  : VectorDatabase :=
  fold_left (apply_mutation L) ops db.

(** A call that is not [load], and whose batch, if any, is small enough for
    the sum [size() + batch.size()] to stay a [size_t]. *)
Definition guarded (max : Z) (op : mutation) : Prop :=
  match op with
  | MLoad _ _ => False
  | MInsertBatch batch => max + Z.of_nat (length batch) < size_t_modulus
  | _ => True
  end.

(** A float that is neither an infinity nor a NaN, and a float that is a
    zero of either sign. *)
Definition float_finite (x : float) : Prop :=
  match decode x with
  | S754_zero _ | S754_finite _ _ _ => True
  | _ => False
  end.

Definition float_is_zero (x : float) : Prop :=
  exists s, decode x = S754_zero s.

(** * Properties *)

(** ** The binary32 embedding on known values *)

Example decode_FLT_MAX : decode FLT_MAX = S754_finite false 16777215 104.
Proof. reflexivity. Qed.

Example fadd_one_two : fadd one two = 0x40400000.
Proof. vm_compute. reflexivity. Qed.

Example fadd_tenth_fifth : fadd 0x3DCCCCCD 0x3E4CCCCD = 0x3E99999A.
Proof. vm_compute. reflexivity. Qed.

Example fsqrt_two : fsqrt two = 0x3FB504F3.
Proof. vm_compute. reflexivity. Qed.

Example fdiv_one_three : fdiv one 0x40400000 = 0x3EAAAAAB.
Proof. vm_compute. reflexivity. Qed.

Example fmul_overflows : fmul FLT_MAX FLT_MAX = 0x7F800000.
Proof. vm_compute. reflexivity. Qed.

Example fsub_infinities_is_nan :
  is_nan (fsub 0x7F800000 0x7F800000) = true.
Proof. vm_compute. reflexivity. Qed.

Example nan_compares_false :
  flt 0x7FC00000 one = false /\ fle 0x7FC00000 one = false
  /\ fle one 0x7FC00000 = false /\ feq 0x7FC00000 0x7FC00000 = false.
Proof. vm_compute. repeat split. Qed.

(** ** Comparisons of binary32 values *)

Lemma SFcompare_antisym (x y : spec_float) (c : comparison) :
  SFcompare x y = Some c -> SFcompare y x = Some (CompOpp c).
Proof.
  destruct x as [sx|sx| |sx mx ex], y as [sy|sy| |sy my ey]; simpl;
    intros H; try discriminate; injection H as <-;
    try (destruct sx; destruct sy; reflexivity);
    try (destruct sx; reflexivity); try (destruct sy; reflexivity).
  change (Pos.compare_cont Eq my mx) with (Pos.compare my mx).
  change (Pos.compare_cont Eq mx my) with (Pos.compare mx my).
  rewrite (Z.compare_antisym ex ey), (Pos.compare_antisym mx my).
  destruct sx, sy; simpl; try reflexivity;
    destruct (ex ?= ey); simpl; try reflexivity;
    destruct (mx ?= my)%positive; reflexivity.
Qed.

Lemma SFcompare_defined (x y : spec_float) :
  x <> S754_nan -> y <> S754_nan -> exists c, SFcompare x y = Some c.
Proof.
  destruct x, y; simpl; intros Hx Hy; try congruence; eauto.
Qed.

Lemma fle_not_nan (a b : float) :
  fle a b = true -> is_nan a = false /\ is_nan b = false.
Proof.
  unfold fle, SFleb, is_nan.
  destruct (decode a), (decode b); simpl; intros H;
    try discriminate; split; reflexivity.
Qed.

Lemma flt_fle (a b : float) : flt a b = true -> fle a b = true.
Proof.
  unfold flt, fle, SFltb, SFleb.
  destruct (SFcompare (decode a) (decode b)) as [[]|];
    intros H; try discriminate; reflexivity.
Qed.

Lemma not_flt_fle (a b : float) :
  is_nan a = false -> is_nan b = false -> flt a b = false -> fle b a = true.
Proof.
  unfold is_nan, flt, fle, SFltb, SFleb. intros Ha Hb.
  destruct (SFcompare_defined (decode a) (decode b)) as [c Hc].
  - intros E. rewrite E in Ha. discriminate.
  - intros E. rewrite E in Hb. discriminate.
  - rewrite Hc, (SFcompare_antisym _ _ _ Hc).
    destruct c; simpl; intros H; try discriminate; reflexivity.
Qed.

Lemma SFleb_trans (x y z : spec_float) :
  SFleb x y = true -> SFleb y z = true -> SFleb x z = true.
Proof.
  unfold SFleb.
  destruct x as [sx|sx| |sx mx ex], y as [sy|sy| |sy my ey],
           z as [sz|sz| |sz mz ez]; cbn [SFcompare];
    try discriminate; try reflexivity;
    try (destruct sx; try discriminate; try reflexivity;
         destruct sy; try discriminate; try reflexivity;
         destruct sz; try discriminate; reflexivity);
    try (destruct sx; try discriminate; try reflexivity;
         destruct sz; try discriminate; reflexivity);
    try (destruct sy; try discriminate; try reflexivity;
         destruct sz; try discriminate; reflexivity);
    try (destruct sx; try discriminate; try reflexivity;
         destruct sy; try discriminate; reflexivity).
  all: change (Pos.compare_cont Eq mx my) with (Pos.compare mx my);
       change (Pos.compare_cont Eq my mz) with (Pos.compare my mz);
       change (Pos.compare_cont Eq mx mz) with (Pos.compare mx mz).
  all: destruct sx, sy, sz; try discriminate; try reflexivity.
  all: destruct (Z.compare_spec ex ey), (Z.compare_spec ey ez),
         (Z.compare_spec ex ez); try discriminate; try reflexivity;
         try lia; subst.
  all: destruct (Pos.compare_spec mx my), (Pos.compare_spec my mz),
         (Pos.compare_spec mx mz); cbn [CompOpp];
         try discriminate; try reflexivity; try lia.
Qed.

Lemma fle_trans (a b c : float) :
  fle a b = true -> fle b c = true -> fle a c = true.
Proof. unfold fle. apply SFleb_trans. Qed.

(** ** std::sort *)

Lemma sort_insert_perm (x : SearchResult) (l : list SearchResult) :
  Permutation (sort_insert x l) (x :: l).
Proof.
  induction l as [|y l IH]; cbn [sort_insert].
  - apply Permutation_refl.
  - destruct (by_distance y x).
    + eapply Permutation_trans.
      * apply perm_skip. exact IH.
      * apply perm_swap.
    + apply Permutation_refl.
Qed.

Lemma std_sort_perm (l : list SearchResult) : Permutation (std_sort l) l.
Proof.
  induction l as [|x l IH]; cbn [std_sort fold_right].
  - apply perm_nil.
  - eapply Permutation_trans.
    + apply sort_insert_perm.
    + apply perm_skip. exact IH.
Qed.

Lemma sort_insert_hd (x y : SearchResult) (l : list SearchResult) :
  distance_le y x -> HdRel distance_le y l ->
  HdRel distance_le y (sort_insert x l).
Proof.
  intros Hyx Hl. destruct l as [|z l]; cbn [sort_insert].
  - constructor. exact Hyx.
  - destruct (by_distance z x).
    + constructor. inversion Hl; assumption.
    + constructor. exact Hyx.
Qed.

Lemma sort_insert_sorted (x : SearchResult) (l : list SearchResult) :
  ordered x -> Forall ordered l ->
  Sorted distance_le l -> Sorted distance_le (sort_insert x l).
Proof.
  intros Hx. induction l as [|y l IH]; cbn [sort_insert]; intros Hall Hs.
  - repeat constructor.
  - inversion Hall as [|? ? Hy Hl]; subst.
    inversion Hs as [|? ? Hs' Hhd]; subst.
    destruct (by_distance y x) eqn:E.
    + constructor.
      * apply IH; assumption.
      * apply sort_insert_hd; [apply flt_fle; exact E | exact Hhd].
    + constructor.
      * exact Hs.
      * constructor. unfold distance_le.
        apply not_flt_fle; assumption.
Qed.

Lemma std_sort_sorted (l : list SearchResult) :
  Forall ordered l -> Sorted distance_le (std_sort l).
Proof.
  induction l as [|x l IH]; cbn [std_sort fold_right]; intros Hall.
  - constructor.
  - inversion Hall; subst.
    apply sort_insert_sorted; auto.
    eapply Permutation_Forall.
    + apply Permutation_sym. apply std_sort_perm.
    + assumption.
Qed.

Lemma distance_le_trans : Relations_1.Transitive distance_le.
Proof.
  intros a b c. unfold distance_le. apply fle_trans.
Qed.

(** In a sorted result every record is at most as far as every later one. *)
Lemma std_sort_strongly_sorted (l : list SearchResult) :
  Forall ordered l -> StronglySorted distance_le (std_sort l).
Proof.
  intros H. apply Sorted_StronglySorted.
  - exact distance_le_trans.
  - apply std_sort_sorted. exact H.
Qed.

(** ** The radius scan *)

Lemma radius_scan_filter db query radius m :
  radius_scan db query radius m
  = map (to_result db query) (filter (within db query radius) m).
Proof.
  induction m as [|e m IH]; cbn [radius_scan filter map].
  - reflexivity.
  - unfold within at 1. destruct (fle _ radius); cbn [map]; rewrite IH;
      reflexivity.
Qed.

Lemma radius_scan_ordered db query radius m :
  Forall ordered (radius_scan db query radius m).
Proof.
  induction m as [|e m IH]; cbn [radius_scan].
  - constructor.
  - destruct (fle _ radius) eqn:E; [constructor|]; try exact IH.
    unfold ordered; cbn [sr_distance]. apply (fle_not_nan _ _ E).
Qed.

(** ** Distance computation on vectors of unequal length *)

Lemma same_size_false (a b : vec) :
  length a <> length b -> same_size a b = false.
Proof. intros H. unfold same_size. apply Nat.eqb_neq. exact H. Qed.

(** C8: for each of the four metrics and every pair of vectors of unequal
    lengths, the distance computation returns
    [std::numeric_limits<float>::max()], the largest finite binary32 value;
    the dispatching [calculateDistance] does so whatever the configured
    metric, so it yields a value for every pair of inputs. *)
Theorem distance_of_unequal_lengths_is_FLT_MAX
  (db : VectorDatabase) (a b : vec) :
  length a <> length b ->
  calculateEuclideanDistance a b = FLT_MAX
  /\ calculateCosineDistance a b = FLT_MAX
  /\ calculateManhattanDistance a b = FLT_MAX
  /\ calculateDotProductDistance a b = FLT_MAX
  /\ calculateDistance db a b = FLT_MAX
  /\ decode FLT_MAX = SFmax_float prec emax.
Proof.
  intros H. apply same_size_false in H.
  unfold calculateDistance, calculateEuclideanDistance,
    calculateCosineDistance, calculateManhattanDistance,
    calculateDotProductDistance.
  rewrite H. cbn [negb].
  repeat split; try reflexivity.
  destruct (distance_metric (config_ db)); reflexivity.
Qed.

(** An instance: a vector of one float against a vector of two. *)
Lemma distance_of_unequal_lengths_is_FLT_MAX_witness :
  length [zero] <> length [zero; one]
  /\ calculateDistance db_abc [zero] [zero; one] = FLT_MAX.
Proof.
  assert (H : length [zero] <> length [zero; one]) by (cbn [length]; lia).
  split; [exact H|].
  exact (proj1 (proj2 (proj2 (proj2 (proj2
    (distance_of_unequal_lengths_is_FLT_MAX db_abc [zero] [zero; one] H)))))).
Defined.

(** ** search_radius *)

(** C6: for every store, every query of the store's dimension and every
    radius, [search_radius] returns exactly the stored records whose distance
    to the query is [<=] the radius (a record is in the result if and only if
    it is stored and within the radius), ordered by non-decreasing distance
    (every result is at most as far as every later one), each such record
    once, and as many results as there are such records: nothing caps the
    count. *)
Theorem search_radius_exact
  (db : VectorDatabase) (query : vec) (radius : float) :
  validateVector db query = true ->
  let results := search_radius db query radius in
  (forall r, In r results <->
             exists id v, In (id, v) (vectors_ db)
                          /\ fle (calculateDistance db query v) radius = true
                          /\ r = {| sr_id := id;
                                    sr_distance := calculateDistance db query v;
                                    sr_vector := v |})
  /\ StronglySorted distance_le results
  /\ Permutation results
       (map (to_result db query)
          (filter (within db query radius) (vectors_ db)))
  /\ length results
     = length (filter (within db query radius) (vectors_ db)).
Proof.
  intros Hq results. unfold results, search_radius.
  rewrite Hq. cbn [negb].
  pose proof (std_sort_perm (radius_scan db query radius (vectors_ db))) as P.
  split; [|split; [|split]].
  - intros r. split.
    + intros Hin. apply (Permutation_in _ P) in Hin.
      rewrite radius_scan_filter in Hin.
      apply in_map_iff in Hin. destruct Hin as [[id v] [Hr Hin]].
      apply filter_In in Hin. destruct Hin as [Hin Hw].
      exists id, v. repeat split; auto.
    + intros [id [v [Hin [Hw ->]]]].
      apply (Permutation_in _ (Permutation_sym P)).
      rewrite radius_scan_filter. apply in_map_iff.
      exists (id, v). split; [reflexivity|].
      apply filter_In. split; assumption.
  - apply std_sort_strongly_sorted. apply radius_scan_ordered.
  - rewrite <- radius_scan_filter. exact P.
  - rewrite (Permutation_length P), radius_scan_filter.
    apply length_map.
Qed.

(** An instance: the records within distance 1 of the origin. *)
Lemma search_radius_exact_witness :
  validateVector db_abc origin = true
  /\ StronglySorted distance_le (search_radius db_abc origin one)
  /\ length (search_radius db_abc origin one)
     = length (filter (within db_abc origin one) (vectors_ db_abc)).
Proof.
  assert (H : validateVector db_abc origin = true) by reflexivity.
  split; [exact H|].
  destruct (search_radius_exact db_abc origin one H) as [_ [Hs [_ Hl]]].
  split; [exact Hs | exact Hl].
Defined.

(** ** The table of records *)

Lemma um_find_In (id : string) (v : vec) (m : unordered_map) :
  um_find id m = Some v -> In (id, v) m.
Proof.
  induction m as [|[k w] m IH]; cbn [um_find]; intros H.
  - discriminate.
  - destruct (String.eqb k id) eqn:E.
    + apply String.eqb_eq in E. injection H as ->. left. subst. reflexivity.
    + right. apply IH. exact H.
Qed.

Lemma um_find_None (id : string) (m : unordered_map) :
  um_find id m = None <-> ~ In id (um_keys m).
Proof.
  induction m as [|[k w] m IH]; cbn [um_find um_keys map fst In].
  - tauto.
  - destruct (String.eqb k id) eqn:E.
    + apply String.eqb_eq in E. split; [discriminate|]. intros H. tauto.
    + apply String.eqb_neq in E. fold (um_keys m). tauto.
Qed.

Lemma In_um_find (id : string) (v : vec) (m : unordered_map) :
  um_wf m -> In (id, v) m -> um_find id m = Some v.
Proof.
  unfold um_wf. induction m as [|[k w] m IH]; cbn [um_find um_keys map fst].
  - intros _ [].
  - fold (um_keys m). intros Hnd Hin. inversion Hnd as [|? ? Hk Hnd']; subst.
    destruct Hin as [Heq|Hin].
    + injection Heq as -> ->. rewrite String.eqb_refl. reflexivity.
    + destruct (String.eqb k id) eqn:E.
      * apply String.eqb_eq in E. subst. exfalso. apply Hk.
        apply (in_map fst) in Hin. exact Hin.
      * apply IH; assumption.
Qed.

Lemma um_wf_perm (m m' : unordered_map) :
  Permutation m m' -> um_wf m -> um_wf m'.
Proof.
  unfold um_wf, um_keys. intros P.
  apply Permutation_NoDup. apply Permutation_map. exact P.
Qed.

Lemma um_find_perm (id : string) (m m' : unordered_map) :
  um_wf m -> Permutation m m' -> um_find id m' = um_find id m.
Proof.
  intros Hwf P. destruct (um_find id m) as [v|] eqn:E.
  - apply In_um_find.
    + eapply um_wf_perm; eassumption.
    + eapply Permutation_in; [exact P|]. apply um_find_In. exact E.
  - apply um_find_None. apply um_find_None in E. intros Hin. apply E.
    eapply Permutation_in; [|exact Hin].
    apply Permutation_map. apply Permutation_sym. exact P.
Qed.

Lemma um_replace_keys (id : string) (v : vec) (m : unordered_map) :
  um_keys (um_replace id v m) = um_keys m.
Proof.
  induction m as [|[k w] m IH]; cbn [um_replace].
  - reflexivity.
  - destruct (String.eqb k id); cbn [um_keys map fst].
    + reflexivity.
    + f_equal. exact IH.
Qed.

Lemma um_replace_length (id : string) (v : vec) (m : unordered_map) :
  length (um_replace id v m) = length m.
Proof.
  rewrite <- (length_map fst (um_replace id v m)), <- (length_map fst m).
  f_equal. apply um_replace_keys.
Qed.

Lemma um_replace_find_same (id : string) (v : vec) (m : unordered_map) :
  um_find id m <> None -> um_find id (um_replace id v m) = Some v.
Proof.
  induction m as [|[k w] m IH]; cbn [um_find um_replace]; intros H.
  - congruence.
  - destruct (String.eqb k id) eqn:E; cbn [um_find]; rewrite E.
    + reflexivity.
    + apply IH. exact H.
Qed.

Lemma um_replace_find_other (id id' : string) (v : vec) (m : unordered_map) :
  id' <> id -> um_find id' (um_replace id v m) = um_find id' m.
Proof.
  intros Hne. induction m as [|[k w] m IH]; cbn [um_find um_replace].
  - reflexivity.
  - destruct (String.eqb k id) eqn:E; cbn [um_find].
    + apply String.eqb_eq in E. subst k.
      destruct (String.eqb id id') eqn:E'; [|reflexivity].
      apply String.eqb_eq in E'. congruence.
    + rewrite IH. reflexivity.
Qed.

Section Assign.
Variable L : Layout.

Lemma um_assign_wf (id : string) (v : vec) (m : unordered_map) :
  um_wf m -> um_wf (um_assign L id v m).
Proof.
  intros Hwf. unfold um_assign. destruct (um_find id m) eqn:E.
  - unfold um_wf. rewrite um_replace_keys. exact Hwf.
  - apply (um_wf_perm ((id, v) :: m)).
    + apply Permutation_sym. apply layout_perm.
    + unfold um_wf. cbn [um_keys map fst]. constructor.
      * apply um_find_None. exact E.
      * exact Hwf.
Qed.

Lemma um_assign_find_same (id : string) (v : vec) (m : unordered_map) :
  um_wf m -> um_find id (um_assign L id v m) = Some v.
Proof.
  intros Hwf. unfold um_assign. destruct (um_find id m) eqn:E.
  - apply um_replace_find_same. congruence.
  - apply In_um_find.
    + pose proof (um_assign_wf id v m Hwf) as W.
      unfold um_assign in W. rewrite E in W. exact W.
    + apply (Permutation_in _ (Permutation_sym (layout_perm L _))).
      left. reflexivity.
Qed.

Lemma um_assign_find_other (id id' : string) (v : vec) (m : unordered_map) :
  um_wf m -> id' <> id ->
  um_find id' (um_assign L id v m) = um_find id' m.
Proof.
  intros Hwf Hne. unfold um_assign. destruct (um_find id m) eqn:E.
  - apply um_replace_find_other. exact Hne.
  - rewrite (um_find_perm id' ((id, v) :: m)).
    + cbn [um_find]. destruct (String.eqb id id') eqn:E'.
      * apply String.eqb_eq in E'. congruence.
      * reflexivity.
    + unfold um_wf. cbn [um_keys map fst]. constructor.
      * apply um_find_None. exact E.
      * exact Hwf.
    + apply Permutation_sym. apply layout_perm.
Qed.

Lemma um_assign_size (id : string) (v : vec) (m : unordered_map) :
  um_size (um_assign L id v m)
  = match um_find id m with
    | Some _ => um_size m
    | None => um_size m + 1
    end.
Proof.
  unfold um_assign, um_size. destruct (um_find id m).
  - rewrite um_replace_length. reflexivity.
  - rewrite (Permutation_length (layout_perm L _)). cbn [length]. lia.
Qed.

Lemma um_assign_size_le (id : string) (v : vec) (m : unordered_map) :
  um_size m <= um_size (um_assign L id v m) <= um_size m + 1.
Proof. rewrite um_assign_size. destruct (um_find id m); lia. Qed.

Lemma fold_assign_size_le (batch : std_map) (m : unordered_map) :
  um_size (fold_left (fun m e => um_assign L (fst e) (snd e) m) batch m)
  <= um_size m + Z.of_nat (length batch).
Proof.
  revert m. induction batch as [|e batch IH]; intros m; cbn [fold_left length].
  - lia.
  - specialize (IH (um_assign L (fst e) (snd e) m)).
    pose proof (um_assign_size_le (fst e) (snd e) m). lia.
Qed.
End Assign.

(** ** insert *)

Lemma string_empty_iff (s : string) : string_empty s = true <-> s = EmptyString.
Proof.
  unfold string_empty. destruct s; cbn [String.length Nat.eqb].
  - tauto.
  - split; discriminate.
Qed.

Lemma validateVector_iff (db : VectorDatabase) (v : vec) :
  validateVector db v = true <-> Z.of_nat (length v) = dimension_ db.
Proof. unfold validateVector. apply Z.eqb_eq. Qed.

(** C1, as stated, fails: the store is at capacity, the id "a" is stored, the
    vector is valid, and still [insert] rejects the call and leaves the old
    vector in place. *)
Lemma insert_upsert_at_capacity_rejected :
  size db_full = max_vectors (config_ db_full)
  /\ exists_ db_full "a" = true
  /\ validateVector db_full [two] = true
  /\ string_empty "a" = false
  /\ insert front_layout db_full "a" [two] = (false, db_full)
  /\ get_vector db_full "a" = [one].
Proof. repeat split. Qed.

(** C1 (amended): [insert(id, vector)] is rejected exactly when [id] is empty,
    or the vector's length differs from the store's dimension, or the store
    already holds [max_vectors] records or more, whether or not [id] is
    already present; a rejected call leaves the store as it was; an accepted
    call maps [id] to the vector, leaves every other id alone, and grows the
    store by one exactly when [id] was new. *)
Theorem insert_rejected_iff
  (L : Layout) (db : VectorDatabase) (id : string) (vector : vec) :
  um_wf (vectors_ db) ->
  let r := insert L db id vector in
  (fst r = false <->
     id = EmptyString
     \/ Z.of_nat (length vector) <> dimension_ db
     \/ size db >= max_vectors (config_ db))
  /\ (fst r = false -> snd r = db)
  /\ (fst r = true ->
      um_find id (vectors_ (snd r)) = Some vector
      /\ (forall id', id' <> id ->
            um_find id' (vectors_ (snd r)) = um_find id' (vectors_ db))
      /\ size (snd r) = if exists_ db id then size db else size db + 1).
Proof.
  intros Hwf r. unfold r, insert.
  pose proof (validateVector_iff db vector) as Hv.
  pose proof (string_empty_iff id) as He.
  destruct (validateVector db vector); cbn [negb].
  - destruct (string_empty id).
    + cbn [fst snd]. repeat split; try discriminate; intros; tauto.
    + destruct (size db >=? max_vectors (config_ db)) eqn:Ec.
      * apply Z.geb_le in Ec. cbn [fst snd].
        repeat split; try discriminate; intros; try tauto.
        right. right. lia.
      * cbn [fst snd with_vectors vectors_].
        assert (Hlt : size db < max_vectors (config_ db)).
        { destruct (Z.geb_spec (size db) (max_vectors (config_ db)));
            [discriminate | lia]. }
        split; [|split].
        -- split; [discriminate|].
           intros [H|[H|H]].
           ++ apply He in H. discriminate.
           ++ exfalso. apply H. apply Hv. reflexivity.
           ++ lia.
        -- discriminate.
        -- intros _. split; [|split].
           ++ apply um_assign_find_same. exact Hwf.
           ++ intros id' Hne. apply um_assign_find_other; assumption.
           ++ unfold size, exists_. cbn [with_vectors vectors_].
              rewrite um_assign_size. destruct (um_find id (vectors_ db));
                reflexivity.
  - cbn [fst snd]. repeat split; try discriminate; intros; try tauto.
    right. left. intros E. apply Hv in E. discriminate.
Qed.

(** An instance: a new id offered to the full store. *)
Lemma insert_rejected_iff_witness :
  um_wf (vectors_ db_full)
  /\ (fst (insert front_layout db_full "b" [two]) = false <->
        "b"%string = EmptyString
        \/ Z.of_nat (length [two]) <> dimension_ db_full
        \/ size db_full >= max_vectors (config_ db_full)).
Proof.
  assert (W : um_wf (vectors_ db_full)).
  { unfold um_wf. cbn. constructor; [intros []|constructor]. }
  split; [exact W|].
  exact (proj1 (insert_rejected_iff front_layout db_full "b" [two] W)).
Defined.

(** ** insert_batch *)

Lemma batch_pair_invalid_iff (db : VectorDatabase) (e : string * vec) :
  batch_pair_invalid db e = true <->
  fst e = EmptyString \/ Z.of_nat (length (snd e)) <> dimension_ db.
Proof.
  unfold batch_pair_invalid.
  pose proof (validateVector_iff db (snd e)) as Hv.
  pose proof (string_empty_iff (fst e)) as He.
  destruct (validateVector db (snd e)), (string_empty (fst e));
    cbn [negb orb]; split; intros H; try reflexivity; try discriminate.
  - left. tauto.
  - destruct H as [H|H]; [apply He in H; discriminate | tauto].
  - left. tauto.
  - right. intros E. apply Hv in E. discriminate.
Qed.

Lemma batch_valid_iff (db : VectorDatabase) (batch : std_map) :
  existsb (batch_pair_invalid db) batch = false <-> batch_valid db batch.
Proof.
  unfold batch_valid. induction batch as [|e batch IH]; cbn [existsb].
  - split; [constructor | reflexivity].
  - pose proof (batch_pair_invalid_iff db e) as Hi.
    destruct (batch_pair_invalid db e); cbn [orb].
    + split; [discriminate|]. intros H. inversion H as [|? ? [H1 H2] _]; subst.
      destruct (proj1 Hi eq_refl); tauto.
    + rewrite IH. split.
      * intros H. constructor; [|exact H]. split.
        -- intros E. assert (false = true) by tauto. discriminate.
        -- destruct (Z.eq_dec (Z.of_nat (length (snd e))) (dimension_ db));
             [assumption|]. assert (false = true) by tauto. discriminate.
      * intros H. inversion H; assumption.
Qed.

Lemma batch_invalid_iff (db : VectorDatabase) (batch : std_map) :
  existsb (batch_pair_invalid db) batch = true <-> batch_invalid db batch.
Proof.
  unfold batch_invalid. rewrite existsb_exists, Exists_exists.
  split; intros [e [Hin H]]; exists e; (split; [exact Hin|]);
    apply batch_pair_invalid_iff; exact H.
Qed.

Lemma post_insert_size_le (db : VectorDatabase) (batch : std_map) :
  post_insert_size db batch <= size db + Z.of_nat (length batch).
Proof.
  unfold post_insert_size, size, um_size.
  pose proof (filter_length_le
                (fun e : string * vec => negb (in_batch batch (fst e)))
                (vectors_ db)).
  lia.
Qed.

Lemma size_t_add_small (a b : Z) :
  0 <= a + b < size_t_modulus -> size_t_add a b = a + b.
Proof. intros H. unfold size_t_add, size_t_wrap. apply Z.mod_small. exact H. Qed.

Lemma size_nonneg (db : VectorDatabase) : 0 <= size db.
Proof. unfold size, um_size. lia. Qed.

(** A rejected batch has no effect at all. *)
Lemma insert_batch_rejected_unchanged
  (L : Layout) (db : VectorDatabase) (batch : std_map) :
  fst (insert_batch L db batch) = false -> snd (insert_batch L db batch) = db.
Proof.
  unfold insert_batch.
  destruct (existsb (batch_pair_invalid db) batch); [reflexivity|].
  destruct (size_t_add _ _ >? _); [reflexivity|].
  cbn [fst]. discriminate.
Qed.

(** C3, as stated, fails: a valid batch whose only id is already stored leaves
    the total at 1, which does not exceed [max_vectors = 1], and is rejected
    all the same. *)
Lemma insert_batch_of_present_ids_rejected :
  batch_valid db_full [("a"%string, [two])]
  /\ Forall (fun e => exists_ db_full (fst e) = true) [("a"%string, [two])]
  /\ post_insert_size db_full [("a"%string, [two])] = 1
  /\ max_vectors (config_ db_full) = 1
  /\ insert_batch front_layout db_full [("a"%string, [two])]
     = (false, db_full).
Proof.
  repeat split.
  - repeat constructor. cbn. discriminate.
  - repeat constructor.
Qed.

(** C3 (amended): a valid batch is rejected for capacity exactly when the
    store's current size plus the number of batch entries exceeds
    [max_vectors]; batch ids that are already stored are counted twice, so a
    batch of ids that are all present is rejected whenever that sum exceeds
    the maximum. *)
Theorem insert_batch_capacity_rejection
  (L : Layout) (db : VectorDatabase) (batch : std_map) :
  batch_valid db batch ->
  size db + Z.of_nat (length batch) < size_t_modulus ->
  (fst (insert_batch L db batch) = false <->
   size db + Z.of_nat (length batch) > max_vectors (config_ db)).
Proof.
  intros Hvalid Hsmall. unfold insert_batch.
  apply batch_valid_iff in Hvalid. rewrite Hvalid.
  rewrite size_t_add_small by (pose proof (size_nonneg db); lia).
  destruct (Z.gtb_spec (size db + Z.of_nat (length batch))
              (max_vectors (config_ db))); cbn [fst].
  - split; [lia | reflexivity].
  - split; [discriminate | lia].
Qed.

(** An instance: one new record offered to the full store. *)
Lemma insert_batch_capacity_rejection_witness :
  fst (insert_batch front_layout db_full [("b"%string, [two])]) = false <->
  size db_full + Z.of_nat (length [("b"%string, [two])])
  > max_vectors (config_ db_full).
Proof.
  apply (insert_batch_capacity_rejection front_layout db_full
           [("b"%string, [two])]).
  - repeat constructor. cbn. discriminate.
  - reflexivity.
Defined.

(** C4: [insert_batch] is all-or-nothing: if some pair of the batch has an
    empty id or a vector whose length differs from the store's dimension, or
    the batch would exceed capacity (by the total of the specification, or by
    the sum the code compares), the call is rejected and the store, its size
    and its contents are those from before the call. *)
Theorem insert_batch_atomic
  (L : Layout) (db : VectorDatabase) (batch : std_map) :
  size db + Z.of_nat (length batch) < size_t_modulus ->
  batch_invalid db batch
  \/ post_insert_size db batch > max_vectors (config_ db)
  \/ size db + Z.of_nat (length batch) > max_vectors (config_ db) ->
  fst (insert_batch L db batch) = false
  /\ snd (insert_batch L db batch) = db
  /\ size (snd (insert_batch L db batch)) = size db
  /\ vectors_ (snd (insert_batch L db batch)) = vectors_ db.
Proof.
  intros Hsmall Hcase.
  assert (Hrej : fst (insert_batch L db batch) = false).
  { unfold insert_batch.
    destruct (existsb (batch_pair_invalid db) batch) eqn:Ei; [reflexivity|].
    rewrite size_t_add_small by (pose proof (size_nonneg db); lia).
    destruct (Z.gtb_spec (size db + Z.of_nat (length batch))
                (max_vectors (config_ db))); [reflexivity|].
    exfalso. destruct Hcase as [Hc|[Hc|Hc]].
    - apply batch_invalid_iff in Hc. congruence.
    - pose proof (post_insert_size_le db batch). lia.
    - lia. }
  pose proof (insert_batch_rejected_unchanged L db batch Hrej) as Hsame.
  rewrite Hsame. auto.
Qed.

(** An instance: a batch whose second vector has the wrong length. *)
Lemma insert_batch_atomic_witness :
  fst (insert_batch front_layout db_full
         [("b"%string, [two]); ("c"%string, [])]) = false
  /\ snd (insert_batch front_layout db_full
            [("b"%string, [two]); ("c"%string, [])]) = db_full.
Proof.
  destruct (insert_batch_atomic front_layout db_full
              [("b"%string, [two]); ("c"%string, [])]) as [H1 [H2 _]].
  - reflexivity.
  - left. unfold batch_invalid. apply Exists_cons_tl. apply Exists_cons_hd.
    right. cbn. discriminate.
  - split; assumption.
Defined.

(** ** search *)

Lemma pq_push_length (x : SearchResult) (q : priority_queue) :
  length (pq_push x q) = S (length q).
Proof.
  induction q as [|y q IH]; cbn [pq_push].
  - reflexivity.
  - destruct (sr_gt x y); cbn [length]; [rewrite IH|]; reflexivity.
Qed.

Lemma pq_push_In (x y : SearchResult) (q : priority_queue) :
  In y (pq_push x q) <-> y = x \/ In y q.
Proof.
  induction q as [|z q IH]; cbn [pq_push].
  - cbn [In]. intuition auto.
  - destruct (sr_gt x z); cbn [In]; [rewrite IH|]; intuition auto.
Qed.

Lemma pq_drain_id (q : priority_queue) : pq_drain q = q.
Proof. induction q as [|t q IH]; cbn [pq_drain]; [|rewrite IH]; reflexivity. Qed.

(** With [k >= 1] the scan never reads the top of an empty queue, and the
    queue ends with [min k n] elements, [n] the number of records offered. *)
Lemma search_scan_returns
  (db : VectorDatabase) (query : vec) (k : Z) (m : unordered_map) :
  1 <= k ->
  forall pq, pq_size pq <= k ->
  exists pq', search_scan db query k m pq = Returned pq'
              /\ pq_size pq' = Z.min k (pq_size pq + um_size m).
Proof.
  intros Hk. unfold pq_size, um_size.
  induction m as [|e m IH]; intros pq Hpq; cbn [search_scan].
  - exists pq. split; [reflexivity|]. cbn [length]. lia.
  - unfold pq_size. destruct (Z.ltb_spec (Z.of_nat (length pq)) k) as [Hlt|Hge].
    + destruct (IH (pq_push (to_result db query e) pq)) as [pq' [E S]].
      * rewrite pq_push_length. lia.
      * exists pq'. split; [exact E|]. rewrite S, pq_push_length.
        cbn [length]. lia.
    + destruct pq as [|top pq]; [cbn [length] in Hge; lia|].
      cbn [pq_top hd_error pq_pop tl].
      destruct (flt _ (sr_distance top)).
      * destruct (IH (pq_push (to_result db query e) pq)) as [pq' [E S]].
        -- rewrite pq_push_length. exact Hpq.
        -- exists pq'. split; [exact E|]. rewrite S, pq_push_length.
           cbn [length] in *. lia.
      * destruct (IH (top :: pq) Hpq) as [pq' [E S]].
        exists pq'. split; [exact E|]. rewrite S. cbn [length] in *. lia.
Qed.

(** Everything in the queue was offered to it. *)
Lemma search_scan_In
  (db : VectorDatabase) (query : vec) (k : Z) (m : unordered_map) :
  forall pq pq',
    search_scan db query k m pq = Returned pq' ->
    forall r, In r pq' -> In r pq \/ In r (map (to_result db query) m).
Proof.
  induction m as [|e m IH]; intros pq pq'; cbn [search_scan map].
  - intros H r Hr. injection H as <-. left. exact Hr.
  - destruct (pq_size pq <? k).
    + intros H r Hr. destruct (IH _ _ H r Hr) as [Hin|Hin].
      * apply pq_push_In in Hin. destruct Hin as [->|Hin].
        -- right. left. reflexivity.
        -- left. exact Hin.
      * right. right. exact Hin.
    + destruct pq as [|top pq]; cbn [pq_top hd_error pq_pop tl];
        [discriminate|].
      destruct (flt _ (sr_distance top)).
      * intros H r Hr. destruct (IH _ _ H r Hr) as [Hin|Hin].
        -- apply pq_push_In in Hin. destruct Hin as [->|Hin].
           ++ right. left. reflexivity.
           ++ left. right. exact Hin.
        -- right. right. exact Hin.
      * intros H r Hr. destruct (IH _ _ H r Hr) as [Hin|Hin].
        -- left. exact Hin.
        -- right. right. exact Hin.
Qed.

(** What does hold of [search] for [k >= 1]: it returns, with
    [min k size] results, each of them a stored record with its distance, in
    order of non-decreasing distance when no distance is a NaN. *)
Lemma search_returns_min_k_size
  (db : VectorDatabase) (query : vec) (k : Z) :
  1 <= k -> validateVector db query = true ->
  exists results,
    search db query k = Returned results
    /\ Z.of_nat (length results) = Z.min k (size db)
    /\ (forall r, In r results ->
                  In r (map (to_result db query) (vectors_ db)))
    /\ (Forall ordered (map (to_result db query) (vectors_ db)) ->
        StronglySorted distance_le results).
Proof.
  intros Hk Hq. unfold search. rewrite Hq. cbn [negb].
  destruct (vectors_ db) as [|e m] eqn:Em.
  - exists []. unfold size, um_size. rewrite Em. cbn [length map].
    repeat split; try (intros; assumption); [lia | constructor].
  - destruct (search_scan_returns db query k (e :: m) Hk [])
      as [pq [E S]]; [unfold pq_size; cbn [length]; lia|].
    rewrite E. exists (std_sort (pq_drain pq)).
    rewrite pq_drain_id.
    pose proof (std_sort_perm pq) as P.
    assert (Hin : forall r, In r pq ->
                            In r (map (to_result db query) (e :: m))).
    { intros r Hr. destruct (search_scan_In _ _ _ _ _ _ E r Hr) as [[]|H].
      exact H. }
    split; [reflexivity|]. split; [|split].
    + rewrite (Permutation_length P). unfold size. rewrite Em.
      unfold pq_size in S. cbn [length] in S. rewrite S. f_equal.
    + intros r Hr. apply Hin. apply (Permutation_in _ P). exact Hr.
    + intros Hall. apply std_sort_strongly_sorted.
      apply Forall_forall. intros r Hr.
      apply (proj1 (Forall_forall _ _) Hall). apply Hin. exact Hr.
Qed.

(** With [k = 0] and a record to look at, the first comparison of the scan is
    against the top of a queue that is still empty. *)
Lemma search_k0_reads_empty_top (db : VectorDatabase) (query : vec) :
  validateVector db query = true -> vectors_ db <> [] ->
  search db query 0 = TopOfEmptyQueue.
Proof.
  intros Hq Hne. unfold search. rewrite Hq. cbn [negb].
  destruct (vectors_ db) as [|e m]; [congruence|].
  reflexivity.
Qed.

(** For a [size_t] value [k], that is the only way to get there. *)
Lemma search_top_of_empty_iff (db : VectorDatabase) (query : vec) (k : Z) :
  0 <= k ->
  (search db query k = TopOfEmptyQueue <->
   validateVector db query = true /\ vectors_ db <> [] /\ k = 0).
Proof.
  intros Hk. split.
  - intros H. destruct (validateVector db query) eqn:Hq.
    + destruct (Z.eq_dec k 0) as [->|Hne].
      * repeat split. intros E. unfold search in H. rewrite Hq, E in H.
        discriminate.
      * destruct (search_returns_min_k_size db query k) as [rs [E _]];
          [lia | exact Hq | congruence].
    + unfold search in H. rewrite Hq in H. discriminate.
  - intros [Hq [Hne ->]]. apply search_k0_reads_empty_top; assumption.
Qed.

(** C5 fails on the code: with [k = 2] the search answers a (distance 0) and
    c (distance 2) and leaves out b, whose distance 1 is smaller than that of
    c.  The queue keeps its least element on top, so a closer candidate
    evicts the best record held, not the worst. *)
Theorem search_top2_misses_second_nearest :
  search db_abc origin 2
  = Returned [ {| sr_id := "a"; sr_distance := zero;
                  sr_vector := [zero; zero; zero] |};
               {| sr_id := "c"; sr_distance := two;
                  sr_vector := [two; zero; zero] |} ]
  /\ um_find "b"%string (vectors_ db_abc) = Some [one; zero; zero]
  /\ calculateDistance db_abc origin [one; zero; zero] = one
  /\ flt one two = true.
Proof. vm_compute. repeat split. Qed.

(** C9 fails on the code: with [k = 0] and a non-empty store, [search] reads
    the top of the empty queue. *)
Theorem search_k0_top_of_empty_queue :
  validateVector db_abc origin = true
  /\ search db_abc origin 0 = TopOfEmptyQueue.
Proof. vm_compute. split; reflexivity. Qed.

(** ** The persistence codec *)





Lemma firstn_app_exact {A : Type} (n : nat) (l1 l2 : list A) :
  length l1 = n -> firstn n (l1 ++ l2) = l1.
Proof.
  intros <-. rewrite firstn_app, firstn_all, Nat.sub_diag.
  cbn [firstn]. apply app_nil_r.
Qed.

Lemma skipn_app_exact {A : Type} (n : nat) (l1 l2 : list A) :
  length l1 = n -> skipn n (l1 ++ l2) = l2.
Proof.
  intros <-. rewrite skipn_app, skipn_all, Nat.sub_diag. reflexivity.
Qed.

Lemma ifstream_read_exact (n : nat) (buf bs rest : list byte) :
  length bs = n -> length buf = n ->
  ifstream_read n buf {| in_rest := bs ++ rest; in_good := true |}
  = (bs, {| in_rest := rest; in_good := true |}).
Proof.
  intros Hbs Hbuf. unfold ifstream_read. cbn [in_good in_rest].
  rewrite (firstn_app_exact n bs rest Hbs), (skipn_app_exact n bs rest Hbs).
  rewrite Hbs, <- Hbuf, skipn_all, app_nil_r.
  replace (length buf <=? length (bs ++ rest))%nat with true; [reflexivity|].
  symmetry. apply Nat.leb_le. rewrite length_app. lia.
Qed.

Lemma size_t_bytes_length (z : Z) : length (size_t_bytes z) = sizeof_size_t.
Proof. apply length_le_split. Qed.

Lemma le_combine_size_t_bytes (z : Z) :
  0 <= z < size_t_modulus -> le_combine (size_t_bytes z) = z.
Proof.
  intros H. unfold size_t_bytes. rewrite le_combine_split.
  apply Z.mod_small. exact H.
Qed.

Lemma read_size_t_exact (before z : Z) (rest : list byte) :
  0 <= z < size_t_modulus ->
  read_size_t before {| in_rest := size_t_bytes z ++ rest; in_good := true |}
  = (z, {| in_rest := rest; in_good := true |}).
Proof.
  intros H. unfold read_size_t.
  rewrite ifstream_read_exact by apply size_t_bytes_length.
  rewrite le_combine_size_t_bytes by exact H. reflexivity.
Qed.

Lemma vec_bytes_length (v : vec) :
  length (vec_bytes v) = (sizeof_float * length v)%nat.
Proof.
  unfold vec_bytes. induction v as [|x v IH]; cbn [flat_map length].
  - lia.
  - rewrite length_app, length_le_split, IH. lia.
Qed.

Lemma vec_of_bytes_vec_bytes (v : vec) :
  Forall float_wf v -> vec_of_bytes (length v) (vec_bytes v) = v.
Proof.
  unfold vec_bytes. induction v as [|x v IH]; intros Hwf.
  - reflexivity.
  - inversion Hwf as [|? ? Hx Hv]; subst.
    cbn [length vec_of_bytes flat_map].
    rewrite firstn_app_exact, skipn_app_exact by apply length_le_split.
    rewrite le_combine_split, IH by exact Hv.
    rewrite Z.mod_small by exact Hx. reflexivity.
Qed.

Lemma list_byte_of_string_length (s : string) :
  length (list_byte_of_string s) = String.length s.
Proof.
  unfold list_byte_of_string. rewrite length_map.
  induction s as [|c s IH]; cbn [list_ascii_of_string length String.length];
    [|rewrite IH]; reflexivity.
Qed.

Lemma record_bytes_wf (dim : Z) (e : string * vec) :
  entry_wf dim e ->
  Z.to_nat (size_t_mul dim (Z.of_nat sizeof_float))
  = (sizeof_float * Z.to_nat dim)%nat
  /\ length (snd e) = Z.to_nat dim
  /\ record_bytes dim e
     = size_t_bytes (Z.of_nat (String.length (fst e)))
       ++ list_byte_of_string (fst e) ++ vec_bytes (snd e).
Proof.
  intros [Hlen [Hb _]].
  assert (Hn : Z.to_nat (size_t_mul dim (Z.of_nat sizeof_float))
               = (sizeof_float * Z.to_nat dim)%nat).
  { unfold size_t_mul, size_t_wrap, sizeof_float in *.
    change (Z.of_nat 4) with 4. rewrite Z.mod_small by lia. lia. }
  assert (Hl : length (snd e) = Z.to_nat dim) by lia.
  split; [exact Hn|]. split; [exact Hl|].
  unfold record_bytes. rewrite Hn, <- Hl, <- vec_bytes_length, firstn_all.
  reflexivity.
Qed.

Section Load.
Variable L : Layout.

(** Reading back the records that [save] wrote performs, in file order, the
    assignments of those records. *)
Lemma load_records_serialised
  (dim : Z) (u : uninitialised) (m : unordered_map) :
  Forall (entry_wf dim) m ->
  forall i acc rest,
    load_records L dim u (length m) i
      {| in_rest := flat_map (record_bytes dim) m ++ rest; in_good := true |}
      acc
    = ({| in_rest := rest; in_good := true |},
       fold_left (fun a e => um_assign L (fst e) (snd e) a) m acc).
Proof.
  intros Hwf. induction Hwf as [|e m He Hm IH]; intros i acc rest.
  - reflexivity.
  - destruct (record_bytes_wf dim e He) as [Hn [Hl Hr]].
    destruct He as [_ [_ [Hfl Hid]]].
    cbn [length load_records flat_map fold_left].
    rewrite Hr, <- !app_assoc.
    rewrite read_size_t_exact by lia.
    rewrite Nat2Z.id.
    rewrite ifstream_read_exact;
      [| apply list_byte_of_string_length | apply repeat_length].
    rewrite string_of_list_byte_of_string.
    rewrite Hn.
    rewrite ifstream_read_exact;
      [| rewrite vec_bytes_length, Hl; reflexivity
       | rewrite vec_bytes_length, repeat_length; reflexivity].
    rewrite <- Hl, vec_of_bytes_vec_bytes by exact Hfl.
    apply IH.
Qed.

(** Assigning records with distinct new keys collects exactly those
    records. *)
Lemma fold_assign_perm (m : unordered_map) :
  forall acc,
    NoDup (um_keys m ++ um_keys acc) ->
    Permutation
      (fold_left (fun a e => um_assign L (fst e) (snd e) a) m acc)
      (m ++ acc).
Proof.
  induction m as [|[k v] m IH]; intros acc Hnd; cbn [fold_left app].
  - apply Permutation_refl.
  - cbn [um_keys map fst app] in Hnd. fold (um_keys m) in Hnd.
    inversion Hnd as [|? ? Hk Hnd']; subst.
    assert (Hnone : um_find k acc = None).
    { apply um_find_None. intros Hin. apply Hk. apply in_or_app. right.
      exact Hin. }
    cbn [fst snd]. unfold um_assign at 2. rewrite Hnone.
    pose proof (layout_perm L ((k, v) :: acc)) as P.
    eapply Permutation_trans.
    + apply IH.
      eapply Permutation_NoDup; [|exact Hnd].
      cbn [um_keys map fst app]. fold (um_keys m).
      eapply Permutation_trans; [apply Permutation_middle|].
      apply Permutation_app_head.
      apply Permutation_sym. apply (Permutation_map fst) in P. exact P.
    + eapply Permutation_trans.
      * apply Permutation_app_head. exact P.
      * apply Permutation_sym. apply Permutation_middle.
Qed.

(** Loading the serialised form of a well-formed store into any store of the
    same dimension succeeds and leaves the records of the saved store,
    whatever the target held and whatever its [max_vectors]. *)
Lemma load_serialised
  (u : uninitialised) (db target : VectorDatabase) :
  db_wf db -> dimension_ target = dimension_ db ->
  exists m,
    load L u target (Some (serialise db)) = (true, with_vectors target m)
    /\ Permutation m (vectors_ db).
Proof.
  intros [Hd Hk He Hs] Hdim.
  exists (fold_left (fun a e => um_assign L (fst e) (snd e) a)
            (vectors_ db) []).
  split.
  - unfold load, serialise.
    rewrite read_size_t_exact by lia.
    rewrite Hdim, Z.eqb_refl. cbn [negb].
    rewrite read_size_t_exact by (pose proof (size_nonneg db); lia).
    unfold size, um_size. rewrite Nat2Z.id.
    rewrite <- (app_nil_r (flat_map _ _)).
    rewrite load_records_serialised by exact He.
    reflexivity.
  - rewrite <- (app_nil_r (vectors_ db)) at 2.
    apply fold_assign_perm.
    cbn [um_keys map]. rewrite app_nil_r. exact Hk.
Qed.
End Load.

(** ** save and load *)


Lemma db_abc_wf : db_wf db_abc.
Proof.
  constructor.
  - split; reflexivity.
  - unfold um_wf. cbn. repeat constructor; cbn; intuition discriminate.
  - repeat constructor; cbn; unfold float_wf, zero, one, two; lia.
  - reflexivity.
Qed.


(** The two failures that [load] detects before it touches the store. *)
Lemma load_unopened (L : Layout) (u : uninitialised) (db : VectorDatabase) :
  load L u db None = (false, db).
Proof. reflexivity. Qed.

Lemma load_dimension_mismatch
  (L : Layout) (u : uninitialised) (db : VectorDatabase)
  (content : list byte) :
  fst (read_size_t (u_file_dimension u)
         {| in_rest := content; in_good := true |}) <> dimension_ db ->
  load L u db (Some content) = (false, db).
Proof.
  intros H. unfold load.
  destruct (read_size_t _ _) as [file_dimension s]. cbn [fst] in H.
  destruct (Z.eqb_spec file_dimension (dimension_ db)); [congruence|].
  reflexivity.
Qed.

Lemma layout_singleton (L : Layout) (e : string * vec) : layout L [e] = [e].
Proof.
  apply Permutation_length_1_inv. apply Permutation_sym. apply layout_perm.
Qed.

(** C2 fails on the code: the header of the file matches, the stream runs out
    inside the first record, [load] reports failure, and the store has lost
    its record "a" and holds a record "b" with a zero vector instead. *)
Theorem load_truncated_file_clobbers_store (L : Layout) (u : uninitialised) :
  vectors_ db_full = [("a"%string, [one])]
  /\ fst (load L u db_full (Some truncated_file)) = false
  /\ vectors_ (snd (load L u db_full (Some truncated_file)))
     = [("b"%string, [zero])].
Proof.
  split; [reflexivity|].
  assert (E : load L u db_full (Some truncated_file)
              = (false, with_vectors db_full (layout L [("b"%string, [zero])]))).
  { vm_compute. reflexivity. }
  rewrite E, layout_singleton. split; reflexivity.
Qed.

Lemma db_two_wf : db_wf db_two.
Proof.
  constructor.
  - split; reflexivity.
  - unfold um_wf. cbn. repeat constructor; cbn; intuition discriminate.
  - repeat constructor; cbn; unfold float_wf, zero, one, two; lia.
  - reflexivity.
Qed.

(** C10 fails on the code: [load] never looks at [max_vectors].  The store
    obeys the bound before the call; the file saved from a store with two
    records loads with success; afterwards the store holds two records while
    its [max_vectors] is 1. *)
Theorem load_exceeds_max_vectors (L : Layout) (u : uninitialised) :
  size db_small <= max_vectors (config_ db_small)
  /\ save db_two (Some 100%nat) = (true, Some (serialise db_two))
  /\ fst (load L u db_small (Some (serialise db_two))) = true
  /\ size (snd (load L u db_small (Some (serialise db_two)))) = 2
  /\ max_vectors
       (config_ (snd (load L u db_small (Some (serialise db_two))))) = 1.
Proof.
  split; [vm_compute; discriminate|].
  split; [vm_compute; reflexivity|].
  destruct (load_serialised L u db_two db_small db_two_wf eq_refl)
    as [m [E P]].
  rewrite E. cbn [fst snd]. unfold size, um_size.
  cbn [with_vectors vectors_ config_]. rewrite (Permutation_length P).
  repeat split.
Qed.

(** The other mutators keep the bound [size() <= max_vectors]. *)
Lemma um_erase_length (id : string) (m : unordered_map) :
  (length (snd (um_erase id m)) <= length m)%nat.
Proof.
  induction m as [|[k w] m IH]; cbn [um_erase].
  - cbn. lia.
  - destruct (String.eqb k id).
    + cbn. lia.
    + destruct (um_erase id m) as [n r]. cbn [snd length] in *. lia.
Qed.

Lemma capacity_kept_by_other_mutators (L : Layout) (db : VectorDatabase) :
  0 <= max_vectors (config_ db) ->
  size db <= max_vectors (config_ db) ->
  (forall id vector,
      size (snd (insert L db id vector))
      <= max_vectors (config_ (snd (insert L db id vector))))
  /\ (forall batch,
         size db + Z.of_nat (length batch) < size_t_modulus ->
         size (snd (insert_batch L db batch))
         <= max_vectors (config_ (snd (insert_batch L db batch))))
  /\ (forall id,
         size (snd (remove db id))
         <= max_vectors (config_ (snd (remove db id))))
  /\ size (clear db) <= max_vectors (config_ (clear db)).
Proof.
  intros Hmax Hinv. split; [|split; [|split]].
  - intros id vector. unfold insert.
    destruct (validateVector db vector); cbn [negb snd]; [|exact Hinv].
    destruct (string_empty id); cbn [snd]; [exact Hinv|].
    destruct (Z.geb_spec (size db) (max_vectors (config_ db)));
      cbn [snd]; [exact Hinv|].
    unfold size in *. cbn [with_vectors vectors_ config_].
    pose proof (um_assign_size_le L id vector (vectors_ db)). lia.
  - intros batch Hsmall. unfold insert_batch.
    destruct (existsb _ batch); cbn [snd]; [exact Hinv|].
    rewrite size_t_add_small by (pose proof (size_nonneg db); lia).
    destruct (Z.gtb_spec (size db + Z.of_nat (length batch))
                (max_vectors (config_ db))); cbn [snd]; [exact Hinv|].
    unfold size in *. cbn [with_vectors vectors_ config_].
    pose proof (fold_assign_size_le L batch (vectors_ db)). lia.
  - intros id. unfold remove.
    pose proof (um_erase_length id (vectors_ db)) as Hl.
    destruct (um_erase id (vectors_ db)) as [n r].
    cbn [snd] in *. unfold size, um_size in *.
    cbn [with_vectors vectors_ config_]. lia.
  - unfold clear, size, um_size. cbn [with_vectors vectors_ config_ length].
    exact Hmax.
Qed.

(** ** The invariant of the class

    Distinct keys and vectors of the store's dimension are kept by every
    operation, [load] included, so the stores the statements above assume are
    the stores the program can be in. *)

Lemma um_replace_Forall (P : string * vec -> Prop) (id : string) (v : vec)
  (m : unordered_map) :
  P (id, v) -> Forall P m -> Forall P (um_replace id v m).
Proof.
  intros Hv. induction m as [|[k w] m IH]; cbn [um_replace]; intros H.
  - constructor.
  - inversion H as [|? ? Hk Hm]; subst.
    destruct (String.eqb k id) eqn:E.
    + apply String.eqb_eq in E. subst k. constructor; assumption.
    + constructor; [exact Hk | apply IH; exact Hm].
Qed.

Lemma um_assign_Forall (L : Layout) (P : string * vec -> Prop) (id : string)
  (v : vec) (m : unordered_map) :
  P (id, v) -> Forall P m -> Forall P (um_assign L id v m).
Proof.
  intros Hv Hm. unfold um_assign. destruct (um_find id m).
  - apply um_replace_Forall; assumption.
  - eapply Permutation_Forall.
    + apply Permutation_sym. apply layout_perm.
    + constructor; assumption.
Qed.

Lemma um_erase_incl (id : string) (m : unordered_map) :
  incl (snd (um_erase id m)) m.
Proof.
  induction m as [|[k w] m IH]; cbn [um_erase].
  - apply incl_refl.
  - destruct (String.eqb k id).
    + cbn [snd]. apply incl_tl. apply incl_refl.
    + destruct (um_erase id m) as [n r]. cbn [snd] in *.
      apply incl_cons.
      * left. reflexivity.
      * apply incl_tl. exact IH.
Qed.

Lemma um_erase_wf (id : string) (m : unordered_map) :
  um_wf m -> um_wf (snd (um_erase id m)).
Proof.
  unfold um_wf. induction m as [|[k w] m IH]; cbn [um_erase]; intros H.
  - exact H.
  - cbn [um_keys map fst] in H. fold (um_keys m) in H.
    inversion H as [|? ? Hk Hm]; subst.
    destruct (String.eqb k id).
    + exact Hm.
    + pose proof (um_erase_incl id m) as Hi.
      destruct (um_erase id m) as [n r]. cbn [snd] in *.
      cbn [um_keys map fst]. constructor.
      * intros Hin. apply Hk. apply in_map_iff in Hin.
        destruct Hin as [e [He Hin]]. apply in_map_iff. exists e.
        split; [exact He | apply Hi; exact Hin].
      * apply IH. exact Hm.
Qed.

Lemma vec_of_bytes_length (n : nat) (bs : list byte) :
  length (vec_of_bytes n bs) = n.
Proof.
  revert bs. induction n as [|n IH]; intros bs; cbn [vec_of_bytes length].
  - reflexivity.
  - rewrite IH. reflexivity.
Qed.

Lemma load_records_invariant (L : Layout) (dim : Z) (u : uninitialised)
  (count : nat) :
  0 <= dim ->
  forall i s m,
    um_wf m -> Forall (entry_ok dim) m ->
    um_wf (snd (load_records L dim u count i s m))
    /\ Forall (entry_ok dim) (snd (load_records L dim u count i s m)).
Proof.
  intros Hd. induction count as [|count IH]; intros i s m Hwf Hok;
    cbn [load_records].
  - split; assumption.
  - destruct (read_size_t (u_id_length u i) s) as [id_length s1].
    destruct (ifstream_read (Z.to_nat id_length) _ s1) as [id_bytes s2].
    destruct (ifstream_read _ _ s2) as [vector_bytes s3].
    apply IH.
    + apply um_assign_wf. exact Hwf.
    + apply um_assign_Forall; [|exact Hok].
      unfold entry_ok. cbn [snd]. rewrite vec_of_bytes_length. lia.
Qed.

Lemma invariant_preserved (L : Layout) (u : uninitialised)
  (db : VectorDatabase) :
  invariant db ->
  (forall id vector, invariant (snd (insert L db id vector)))
  /\ (forall batch, invariant (snd (insert_batch L db batch)))
  /\ (forall id, invariant (snd (remove db id)))
  /\ invariant (clear db)
  /\ (forall file, invariant (snd (load L u db file))).
Proof.
  intros [Hd [Hwf Hok]]. split; [|split; [|split; [|split]]].
  - intros id vector. unfold insert.
    pose proof (validateVector_iff db vector) as Hv.
    destruct (validateVector db vector); cbn [negb snd];
      [|repeat split; assumption].
    destruct (string_empty id); cbn [snd]; [repeat split; assumption|].
    destruct (size db >=? max_vectors (config_ db)); cbn [snd];
      [repeat split; assumption|].
    unfold invariant. cbn [with_vectors dimension_ vectors_].
    split; [exact Hd|]. split.
    + apply um_assign_wf. exact Hwf.
    + apply um_assign_Forall; [|exact Hok]. apply Hv. reflexivity.
  - intros batch. unfold insert_batch.
    destruct (existsb (batch_pair_invalid db) batch) eqn:E; cbn [snd];
      [repeat split; assumption|].
    destruct (size_t_add _ _ >? _); cbn [snd]; [repeat split; assumption|].
    apply batch_valid_iff in E.
    unfold invariant. cbn [with_vectors dimension_ vectors_].
    split; [exact Hd|].
    revert Hwf Hok. generalize (vectors_ db).
    induction E as [|e batch [_ He] _ IH]; intros m Hwf Hok; cbn [fold_left].
    + split; assumption.
    + apply IH.
      * apply um_assign_wf. exact Hwf.
      * apply um_assign_Forall; [exact He | exact Hok].
  - intros id. unfold remove.
    pose proof (um_erase_wf id (vectors_ db) Hwf) as Hw.
    pose proof (um_erase_incl id (vectors_ db)) as Hi.
    destruct (um_erase id (vectors_ db)) as [n r]. cbn [snd] in *.
    unfold invariant. cbn [with_vectors dimension_ vectors_].
    split; [exact Hd|]. split; [exact Hw|].
    apply Forall_forall. intros e He.
    apply (proj1 (Forall_forall _ _) Hok). apply Hi. exact He.
  - unfold invariant, clear. cbn [with_vectors dimension_ vectors_].
    split; [exact Hd|]. split; constructor.
  - intros [content|]; unfold load; [|repeat split; assumption].
    destruct (read_size_t (u_file_dimension u) _) as [file_dimension s].
    destruct (negb (file_dimension =? dimension_ db)); cbn [snd];
      [repeat split; assumption|].
    destruct (read_size_t (u_vector_count u) s) as [vector_count s'].
    pose proof (load_records_invariant L (dimension_ db) u
                  (Z.to_nat vector_count) ltac:(lia) O s' []
                  ltac:(constructor) ltac:(constructor)) as [Hw Ho].
    destruct (load_records L (dimension_ db) u (Z.to_nat vector_count) O s' [])
      as [s'' m]. cbn [snd] in *.
    unfold invariant. cbn [with_vectors dimension_ vectors_].
    split; [exact Hd|]. split; assumption.
Qed.

(** * Further properties of the operations *)

(** ** erase *)

Lemma um_erase_count (id : string) (m : unordered_map) :
  fst (um_erase id m) = match um_find id m with Some _ => 1 | None => 0 end.
Proof.
  induction m as [|[k w] m IH]; cbn [um_erase um_find].
  - reflexivity.
  - destruct (String.eqb k id); [reflexivity|].
    destruct (um_erase id m) as [n r]. cbn [fst] in *. exact IH.
Qed.

Lemma um_erase_absent (id : string) (m : unordered_map) :
  um_find id m = None -> snd (um_erase id m) = m.
Proof.
  induction m as [|[k w] m IH]; cbn [um_erase um_find]; intros H.
  - reflexivity.
  - destruct (String.eqb k id); [discriminate|].
    specialize (IH H). destruct (um_erase id m) as [n r]. cbn [snd] in *.
    rewrite IH. reflexivity.
Qed.

Lemma um_erase_find_same (id : string) (m : unordered_map) :
  um_wf m -> um_find id (snd (um_erase id m)) = None.
Proof.
  unfold um_wf. induction m as [|[k w] m IH]; cbn [um_erase um_find]; intros H.
  - reflexivity.
  - cbn [um_keys map fst] in H. fold (um_keys m) in H.
    inversion H as [|? ? Hk Hm]; subst.
    destruct (String.eqb k id) eqn:E.
    + apply String.eqb_eq in E. subst k. cbn [snd].
      apply um_find_None. exact Hk.
    + specialize (IH Hm). destruct (um_erase id m) as [n r].
      cbn [snd um_find] in *. rewrite E. exact IH.
Qed.

Lemma um_erase_find_other (id id' : string) (m : unordered_map) :
  id' <> id -> um_find id' (snd (um_erase id m)) = um_find id' m.
Proof.
  intros Hne. induction m as [|[k w] m IH]; cbn [um_erase um_find].
  - reflexivity.
  - destruct (String.eqb k id) eqn:E.
    + apply String.eqb_eq in E. subst k. cbn [snd].
      destruct (String.eqb id id') eqn:E'; [|reflexivity].
      apply String.eqb_eq in E'. congruence.
    + destruct (um_erase id m) as [n r]. cbn [snd um_find] in *.
      rewrite IH. reflexivity.
Qed.

Lemma um_erase_size (id : string) (m : unordered_map) :
  um_size (snd (um_erase id m))
  = match um_find id m with Some _ => um_size m - 1 | None => um_size m end.
Proof.
  unfold um_size. induction m as [|[k w] m IH]; cbn [um_erase um_find].
  - reflexivity.
  - destruct (String.eqb k id).
    + cbn [snd length]. lia.
    + destruct (um_erase id m) as [n r]. cbn [snd length] in *.
      destruct (um_find id m); lia.
Qed.

Lemma with_vectors_same (db : VectorDatabase) :
  with_vectors db (vectors_ db) = db.
Proof. destruct db. reflexivity. Qed.

(** ** insert, get_vector, exists *)

Lemma insert_keeps_keys
  (L : Layout) (db : VectorDatabase) (id : string) (vector : vec) :
  um_wf (vectors_ db) -> um_wf (vectors_ (snd (insert L db id vector))).
Proof.
  intros Hwf. unfold insert.
  destruct (negb (validateVector db vector)); [exact Hwf|].
  destruct (string_empty id); [exact Hwf|].
  destruct (size db >=? max_vectors (config_ db)); [exact Hwf|].
  cbn [snd with_vectors vectors_]. apply um_assign_wf. exact Hwf.
Qed.

Lemma insert_accepted_effect
  (L : Layout) (db : VectorDatabase) (id : string) (vector : vec) :
  um_wf (vectors_ db) ->
  fst (insert L db id vector) = true ->
  um_find id (vectors_ (snd (insert L db id vector))) = Some vector
  /\ (forall id', id' <> id ->
        um_find id' (vectors_ (snd (insert L db id vector)))
        = um_find id' (vectors_ db))
  /\ size (snd (insert L db id vector))
     = if exists_ db id then size db else size db + 1.
Proof.
  intros Hwf. unfold insert.
  destruct (negb (validateVector db vector)); [discriminate|].
  destruct (string_empty id); [discriminate|].
  destruct (size db >=? max_vectors (config_ db)); [discriminate|].
  intros _. cbn [snd]. unfold size, exists_. cbn [with_vectors vectors_].
  split; [|split].
  - apply um_assign_find_same. exact Hwf.
  - intros id' Hne. apply um_assign_find_other; assumption.
  - rewrite um_assign_size. destruct (um_find id (vectors_ db)); reflexivity.
Qed.

(** X1: a valid vector inserted under a non-empty id into a store below
    capacity is accepted; [get_vector] then returns that vector, [exists]
    answers true, and for every other id both answer as before. *)
Theorem insert_get_roundtrip
  (L : Layout) (db : VectorDatabase) (id : string) (vector : vec) :
  um_wf (vectors_ db) ->
  validateVector db vector = true ->
  id <> EmptyString ->
  size db < max_vectors (config_ db) ->
  let db' := snd (insert L db id vector) in
  fst (insert L db id vector) = true
  /\ get_vector db' id = vector
  /\ exists_ db' id = true
  /\ (forall id', id' <> id ->
        get_vector db' id' = get_vector db id'
        /\ exists_ db' id' = exists_ db id').
Proof.
  intros Hwf Hv Hid Hcap db'. subst db'. unfold insert.
  rewrite Hv. cbn [negb].
  destruct (string_empty id) eqn:He;
    [apply string_empty_iff in He; contradiction|].
  destruct (Z.geb_spec (size db) (max_vectors (config_ db))); [lia|].
  cbn [fst snd]. unfold get_vector, exists_. cbn [with_vectors vectors_].
  rewrite um_assign_find_same by exact Hwf.
  repeat split; try reflexivity;
    rewrite um_assign_find_other by assumption; reflexivity.
Qed.

(** An instance: the id "c" offered to a store that has room. *)
Lemma insert_get_roundtrip_witness :
  get_vector (snd (insert front_layout db_two "c" [zero])) "c" = [zero].
Proof.
  refine (proj1 (proj2 (insert_get_roundtrip front_layout db_two "c" [zero]
                          _ _ _ _))).
  - apply (wf_keys db_two db_two_wf).
  - reflexivity.
  - discriminate.
  - reflexivity.
Defined.

(** X2: when two inserts under the same id are both accepted, the second
    vector is the one stored, and the second insert does not change the
    size. *)
Theorem insert_twice_last_wins
  (L : Layout) (db : VectorDatabase) (id : string) (v1 v2 : vec) :
  um_wf (vectors_ db) ->
  let db1 := snd (insert L db id v1) in
  let db2 := snd (insert L db1 id v2) in
  fst (insert L db id v1) = true ->
  fst (insert L db1 id v2) = true ->
  get_vector db2 id = v2
  /\ size db2 = size db1
  /\ (forall id', id' <> id -> get_vector db2 id' = get_vector db id').
Proof.
  intros Hwf db1 db2 H1 H2.
  assert (Hwf1 : um_wf (vectors_ db1)) by (apply insert_keeps_keys; exact Hwf).
  destruct (insert_accepted_effect L db id v1 Hwf H1) as [Hf1 [Ho1 Hs1]].
  destruct (insert_accepted_effect L db1 id v2 Hwf1 H2) as [Hf2 [Ho2 Hs2]].
  fold db1 in Hf1, Ho1, Hs1. fold db2 in Hf2, Ho2, Hs2.
  split; [|split].
  - unfold get_vector. rewrite Hf2. reflexivity.
  - rewrite Hs2. unfold exists_. rewrite Hf1. reflexivity.
  - intros id' Hne. unfold get_vector.
    rewrite (Ho2 id' Hne), (Ho1 id' Hne). reflexivity.
Qed.


(** An instance: "a" written twice into the two-record store. *)
Lemma insert_twice_last_wins_witness :
  get_vector
    (snd (insert front_layout (snd (insert front_layout db_two "a" [zero]))
            "a" [two])) "a" = [two].
Proof.
  refine (proj1 (insert_twice_last_wins front_layout db_two "a" [zero] [two]
                   _ _ _)).
  - apply (wf_keys db_two db_two_wf).
  - reflexivity.
  - reflexivity.
Defined.

(** ** remove *)

(** X3: [remove(id)] answers whether the id was stored; afterwards the id is
    not stored ([exists] is false, [get_vector] is empty), every other id
    keeps its vector, and the size has dropped by one exactly when the id was
    there; removing an id that is not stored leaves the store as it was. *)
Theorem remove_spec (db : VectorDatabase) (id : string) :
  um_wf (vectors_ db) ->
  let r := remove db id in
  fst r = exists_ db id
  /\ exists_ (snd r) id = false
  /\ get_vector (snd r) id = []
  /\ (forall id', id' <> id ->
        um_find id' (vectors_ (snd r)) = um_find id' (vectors_ db))
  /\ size (snd r) = (if exists_ db id then size db - 1 else size db)
  /\ (exists_ db id = false -> snd r = db).
Proof.
  intros Hwf r. subst r. unfold remove, exists_, get_vector, size.
  pose proof (um_erase_count id (vectors_ db)) as Hc.
  pose proof (um_erase_find_same id (vectors_ db) Hwf) as Hs.
  pose proof (um_erase_size id (vectors_ db)) as Hz.
  pose proof (um_erase_absent id (vectors_ db)) as Ha.
  pose proof (fun id' => um_erase_find_other id id' (vectors_ db)) as Ho.
  destruct (um_erase id (vectors_ db)) as [n m].
  cbn [fst snd with_vectors vectors_] in *.
  rewrite Hs. split; [|split; [|split; [|split; [|split]]]]; try reflexivity.
  - rewrite Hc. destruct (um_find id (vectors_ db)); reflexivity.
  - exact Ho.
  - rewrite Hz. destruct (um_find id (vectors_ db)); reflexivity.
  - destruct (um_find id (vectors_ db)); [discriminate|].
    intros _. rewrite (Ha eq_refl). apply with_vectors_same.
Qed.

(** An instance: "a" removed from the two-record store. *)
Lemma remove_spec_witness :
  fst (remove db_two "a") = exists_ db_two "a"
  /\ exists_ (snd (remove db_two "a")) "a" = false.
Proof.
  destruct (remove_spec db_two "a" (wf_keys db_two db_two_wf))
    as [H1 [H2 _]].
  split; assumption.
Defined.

(** X4: inserting a new id and removing it again gives back the mapping and
    the size from before the insert (the iteration order may differ). *)
Theorem insert_then_remove_restores
  (L : Layout) (db : VectorDatabase) (id : string) (vector : vec) :
  um_wf (vectors_ db) ->
  exists_ db id = false ->
  fst (insert L db id vector) = true ->
  let r := remove (snd (insert L db id vector)) id in
  fst r = true
  /\ (forall id', um_find id' (vectors_ (snd r)) = um_find id' (vectors_ db))
  /\ size (snd r) = size db.
Proof.
  intros Hwf Hnew Hacc r. subst r.
  destruct (insert_accepted_effect L db id vector Hwf Hacc) as [Hf [Ho Hs]].
  pose proof (insert_keeps_keys L db id vector Hwf) as Hwf1.
  set (db1 := snd (insert L db id vector)) in *.
  assert (He1 : exists_ db1 id = true) by (unfold exists_; rewrite Hf; reflexivity).
  unfold remove, size in *.
  pose proof (um_erase_count id (vectors_ db1)) as Hc.
  pose proof (um_erase_find_same id (vectors_ db1) Hwf1) as Hsame.
  pose proof (um_erase_size id (vectors_ db1)) as Hz.
  pose proof (fun id' => um_erase_find_other id id' (vectors_ db1)) as Hoth.
  destruct (um_erase id (vectors_ db1)) as [n m].
  cbn [fst snd with_vectors vectors_] in *.
  rewrite Hf in Hc, Hz. split; [|split].
  - rewrite Hc. reflexivity.
  - intros id'. destruct (String.eqb id' id) eqn:E.
    + apply String.eqb_eq in E. subst id'. rewrite Hsame.
      unfold exists_ in Hnew. destruct (um_find id (vectors_ db));
        [discriminate | reflexivity].
    + apply String.eqb_neq in E. rewrite (Hoth id' E). apply Ho. exact E.
  - rewrite Hz, Hs, Hnew. lia.
Qed.

(** An instance: "c" inserted into the two-record store and removed. *)
Lemma insert_then_remove_restores_witness :
  size (snd (remove (snd (insert front_layout db_two "c" [zero])) "c"))
  = size db_two.
Proof.
  refine (proj2 (proj2 (insert_then_remove_restores front_layout db_two "c"
                          [zero] _ _ _))).
  - apply (wf_keys db_two db_two_wf).
  - reflexivity.
  - reflexivity.
Defined.

(** ** get_vector and get_all_ids *)

(** X5: in a store that satisfies the class invariant, [get_vector] returns
    the empty vector exactly for the ids that are not stored: a stored vector
    has the store's positive dimension and so is never empty. *)
Theorem get_vector_empty_iff_missing (db : VectorDatabase) (id : string) :
  invariant db ->
  (get_vector db id = [] <-> exists_ db id = false).
Proof.
  intros [Hd [_ Hok]]. unfold get_vector, exists_.
  destruct (um_find id (vectors_ db)) as [v|] eqn:E.
  - split; [|discriminate]. intros Hv. subst v.
    apply um_find_In in E.
    pose proof (proj1 (Forall_forall _ _) Hok _ E) as Hlen.
    unfold entry_ok in Hlen. cbn [snd length] in Hlen. lia.
  - split; reflexivity.
Qed.

Lemma db_two_invariant : invariant db_two.
Proof.
  split; [reflexivity|]. split.
  - apply (wf_keys db_two db_two_wf).
  - repeat constructor.
Qed.

(** An instance: the id "z" in the two-record store. *)
Lemma get_vector_empty_iff_missing_witness :
  get_vector db_two "z" = [] <-> exists_ db_two "z" = false.
Proof. exact (get_vector_empty_iff_missing db_two "z" db_two_invariant). Defined.

Lemma exists_id_mem (db : VectorDatabase) (id : string) :
  exists_ db id = id_mem id (get_all_ids db).
Proof.
  unfold exists_, id_mem, get_all_ids.
  induction (vectors_ db) as [|[k w] m IH]; cbn [um_find um_keys map fst existsb].
  - reflexivity.
  - rewrite (String.eqb_sym id k). destruct (String.eqb k id); [reflexivity|].
    exact IH.
Qed.

(** X6: [get_all_ids] lists every stored id exactly once: an id is in the
    list if and only if [exists] answers true for it, no id occurs twice, and
    the list is as long as [size()]. *)
Theorem get_all_ids_spec (db : VectorDatabase) :
  um_wf (vectors_ db) ->
  (forall id, In id (get_all_ids db) <-> exists_ db id = true)
  /\ NoDup (get_all_ids db)
  /\ Z.of_nat (length (get_all_ids db)) = size db.
Proof.
  intros Hwf. split; [|split].
  - intros id. rewrite exists_id_mem. unfold id_mem.
    rewrite existsb_exists. split.
    + intros H. exists id. split; [exact H | apply String.eqb_refl].
    + intros [k [Hin E]]. apply String.eqb_eq in E. subst k. exact Hin.
  - exact Hwf.
  - unfold get_all_ids, um_keys, size, um_size. rewrite length_map.
    reflexivity.
Qed.

(** An instance: the ids of the two-record store. *)
Lemma get_all_ids_spec_witness :
  NoDup (get_all_ids db_two)
  /\ Z.of_nat (length (get_all_ids db_two)) = size db_two.
Proof.
  exact (proj2 (get_all_ids_spec db_two (wf_keys db_two db_two_wf))).
Defined.

(** ** insert_batch, when it is accepted *)

Section BatchEffect.
Variable L : Layout.

Let assign_all (batch : std_map) (m : unordered_map) : unordered_map :=
  fold_left (fun m e => um_assign L (fst e) (snd e) m) batch m.

Lemma assign_all_wf (batch : std_map) :
  forall m, um_wf m -> um_wf (assign_all batch m).
Proof.
  unfold assign_all. induction batch as [|e batch IH]; intros m Hwf;
    cbn [fold_left].
  - exact Hwf.
  - apply IH. apply um_assign_wf. exact Hwf.
Qed.

Lemma assign_all_find_other (id : string) (batch : std_map) :
  ~ In id (map fst batch) ->
  forall m, um_wf m -> um_find id (assign_all batch m) = um_find id m.
Proof.
  unfold assign_all. induction batch as [|e batch IH]; intros Hnot m Hwf;
    cbn [fold_left].
  - reflexivity.
  - cbn [map In] in Hnot. rewrite IH.
    + apply um_assign_find_other; [exact Hwf|]. intros E. apply Hnot.
      left. symmetry. exact E.
    + intros Hin. apply Hnot. right. exact Hin.
    + apply um_assign_wf. exact Hwf.
Qed.

Lemma assign_all_find_in (id : string) (v : vec) (batch : std_map) :
  NoDup (map fst batch) -> In (id, v) batch ->
  forall m, um_wf m -> um_find id (assign_all batch m) = Some v.
Proof.
  induction batch as [|e batch IH]; intros Hnd Hin m Hwf.
  - destruct Hin.
  - cbn [map] in Hnd. inversion Hnd as [|? ? Hk Hnd']; subst.
    unfold assign_all. cbn [fold_left].
    fold (assign_all batch (um_assign L (fst e) (snd e) m)).
    destruct Hin as [->|Hin].
    + cbn [fst snd] in *.
      rewrite assign_all_find_other;
        [| exact Hk | apply um_assign_wf; exact Hwf].
      apply um_assign_find_same. exact Hwf.
    + apply IH; [exact Hnd' | exact Hin | apply um_assign_wf; exact Hwf].
Qed.

Lemma assign_all_size (batch : std_map) :
  NoDup (map fst batch) ->
  forall m, um_wf m ->
    um_size (assign_all batch m)
    = um_size m
      + Z.of_nat (length (filter (fun e => match um_find (fst e) m with
                                           | Some _ => false
                                           | None => true
                                           end) batch)).
Proof.
  induction batch as [|e batch IH]; intros Hnd m Hwf.
  - unfold assign_all. cbn [fold_left filter length]. lia.
  - cbn [map] in Hnd. inversion Hnd as [|? ? Hk Hnd']; subst.
    unfold assign_all. cbn [fold_left].
    fold (assign_all batch (um_assign L (fst e) (snd e) m)).
    rewrite IH by (try exact Hnd'; apply um_assign_wf; exact Hwf).
    rewrite um_assign_size. cbn [filter].
    rewrite (filter_ext_in
               (fun e0 => match um_find (fst e0)
                                  (um_assign L (fst e) (snd e) m) with
                          | Some _ => false
                          | None => true
                          end)
               (fun e0 => match um_find (fst e0) m with
                          | Some _ => false
                          | None => true
                          end)).
    + destruct (um_find (fst e) m); cbn [length]; lia.
    + intros e0 Hin. rewrite um_assign_find_other; [reflexivity | exact Hwf |].
      intros E. apply Hk. rewrite <- E. apply in_map. exact Hin.
Qed.
End BatchEffect.

(** Two duplicate-free lists of ids meet in as many elements, counted from
    either side. *)
Lemma id_mem_In (id : string) (ids : list string) :
  id_mem id ids = true <-> In id ids.
Proof.
  unfold id_mem. rewrite existsb_exists. split.
  - intros [k [Hin E]]. apply String.eqb_eq in E. subst k. exact Hin.
  - intros H. exists id. split; [exact H | apply String.eqb_refl].
Qed.

Lemma id_mem_cons (id k : string) (ids : list string) :
  id_mem id (k :: ids) = String.eqb id k || id_mem id ids.
Proof. reflexivity. Qed.

Lemma id_mem_false (id : string) (ids : list string) :
  ~ In id ids -> id_mem id ids = false.
Proof.
  intros H. destruct (id_mem id ids) eqn:M; [|reflexivity].
  apply id_mem_In in M. contradiction.
Qed.

Lemma count_added_id (a : string) (A B : list string) :
  NoDup B -> ~ In a A ->
  length (filter (fun b => id_mem b (a :: A)) B)
  = ((if id_mem a B then 1 else 0) + length (filter (fun b => id_mem b A) B))%nat.
Proof.
  intros Hnd Ha. induction B as [|b B IH].
  - reflexivity.
  - inversion Hnd as [|? ? Hb HB]; subst. specialize (IH HB).
    cbn [filter]. rewrite (id_mem_cons b a A), (id_mem_cons a b B).
    destruct (String.eqb b a) eqn:E.
    + apply String.eqb_eq in E. subst b.
      rewrite String.eqb_refl. cbn [orb].
      rewrite (id_mem_false a A Ha).
      rewrite (id_mem_false a B Hb) in IH.
      cbn [length]. rewrite IH. reflexivity.
    + rewrite (String.eqb_sym a b), E. cbn [orb].
      destruct (id_mem b A); cbn [length]; rewrite IH;
        destruct (id_mem a B); lia.
Qed.

Lemma count_common_ids (A B : list string) :
  NoDup A -> NoDup B ->
  length (filter (fun a => id_mem a B) A)
  = length (filter (fun b => id_mem b A) B).
Proof.
  intros HA HB. induction A as [|a A IH].
  - cbn [filter length]. induction B as [|b B IHB]; [reflexivity|].
    inversion HB; subst. cbn [filter]. exact (IHB ltac:(assumption)).
  - inversion HA as [|? ? Ha HA']; subst.
    rewrite (count_added_id a A B HB Ha). cbn [filter].
    rewrite <- (IH HA'). destruct (id_mem a B); reflexivity.
Qed.

Lemma filter_on_keys (f : string -> bool) (m : list (string * vec)) :
  length (filter (fun e => f (fst e)) m) = length (filter f (map fst m)).
Proof.
  induction m as [|e m IH]; cbn [filter map].
  - reflexivity.
  - destruct (f (fst e)); cbn [length]; rewrite IH; reflexivity.
Qed.

(** X7: an accepted batch (its ids pairwise distinct, as in a [std::map])
    maps every batch id to its batch vector, leaves every id outside the
    batch alone, and grows the store by the number of batch ids that were
    new, so that the resulting size is the existing records whose ids are
    not in the batch plus the batch entries. *)
Theorem insert_batch_effect
  (L : Layout) (db : VectorDatabase) (batch : std_map) :
  um_wf (vectors_ db) ->
  NoDup (map fst batch) ->
  fst (insert_batch L db batch) = true ->
  let db' := snd (insert_batch L db batch) in
  (forall id v, In (id, v) batch -> get_vector db' id = v
                                    /\ exists_ db' id = true)
  /\ (forall id, ~ In id (map fst batch) ->
        um_find id (vectors_ db') = um_find id (vectors_ db))
  /\ size db' = size db + Z.of_nat (length (new_in_batch db batch))
  /\ size db' = post_insert_size db batch.
Proof.
  intros Hwf Hnd Hacc db'. subst db'. revert Hacc. unfold insert_batch.
  destruct (existsb (batch_pair_invalid db) batch); [discriminate|].
  destruct (size_t_add _ _ >? _); [discriminate|]. intros _.
  cbn [snd]. unfold get_vector, exists_, size. cbn [with_vectors vectors_].
  assert (Hsize :
    um_size (fold_left (fun m e => um_assign L (fst e) (snd e) m) batch
               (vectors_ db))
    = um_size (vectors_ db) + Z.of_nat (length (new_in_batch db batch))).
  { rewrite (assign_all_size L batch Hnd (vectors_ db) Hwf).
    unfold new_in_batch, exists_. do 3 f_equal. apply filter_ext.
    intros e. destruct (um_find (fst e) (vectors_ db)); reflexivity. }
  split; [|split; [|split]].
  - intros id v Hin.
    rewrite (assign_all_find_in L id v batch Hnd Hin (vectors_ db) Hwf).
    split; reflexivity.
  - intros id Hnot. apply assign_all_find_other; assumption.
  - exact Hsize.
  - rewrite Hsize. unfold post_insert_size, new_in_batch, um_size.
    pose proof (filter_length (fun e => in_batch batch (fst e)) (vectors_ db))
      as Hp1.
    pose proof (filter_length (fun e => exists_ db (fst e)) batch) as Hp2.
    assert (Hc : length (filter (fun e => in_batch batch (fst e))
                           (vectors_ db))
                 = length (filter (fun e => exists_ db (fst e)) batch)).
    { rewrite (filter_on_keys (fun k => in_batch batch k)).
      rewrite (filter_ext (fun e => exists_ db (fst e))
                 (fun e => id_mem (fst e) (get_all_ids db)))
        by (intros e; apply exists_id_mem).
      rewrite (filter_on_keys (fun k => id_mem k (get_all_ids db))).
      apply (count_common_ids (map fst (vectors_ db)) (map fst batch));
        assumption. }
    lia.
Qed.

(** An instance: "b" and "c" written into the two-record store. *)
Lemma insert_batch_effect_witness :
  size (snd (insert_batch front_layout db_two
               [("b"%string, [zero]); ("c"%string, [one])])) = 3.
Proof.
  refine (proj1 (proj2 (proj2 (insert_batch_effect front_layout db_two
            [("b"%string, [zero]); ("c"%string, [one])] _ _ _)))).
  - apply (wf_keys db_two db_two_wf).
  - cbn [map fst]. repeat constructor; cbn; intuition discriminate.
  - reflexivity.
Defined.

(** ** Sequences of calls *)

Lemma apply_mutation_keeps_config
  (L : Layout) (db : VectorDatabase) (op : mutation) :
  config_ (apply_mutation L db op) = config_ db
  /\ dimension_ (apply_mutation L db op) = dimension_ db.
Proof.
  destruct op as [id v|batch|id| |u file]; cbn [apply_mutation].
  - unfold insert. destruct (negb _); [auto|].
    destruct (string_empty id); [auto|]. destruct (_ >=? _); auto.
  - unfold insert_batch. destruct (existsb _ _); [auto|].
    destruct (_ >? _); auto.
  - unfold remove. destruct (um_erase id (vectors_ db)). auto.
  - auto.
  - unfold load. destruct file as [content|]; [|auto].
    destruct (read_size_t _ _) as [d s]. destruct (negb _); [auto|].
    destruct (read_size_t _ s) as [c s'].
    destruct (load_records _ _ _ _ _ _ _). auto.
Qed.

(** X8: every store that a program can build satisfies the class invariant:
    the constructor yields a store with distinct keys and vectors of the
    store's (positive) dimension, and any sequence of insert, insert_batch,
    remove, clear and load calls, accepted or not, leaves such a store. *)
Theorem invariant_of_reachable_stores
  (L : Layout) (dimension : Z) (config : VectorDatabaseConfig)
  (db0 : VectorDatabase) (ops : list mutation) :
  0 <= dimension ->
  VectorDatabase_new dimension config = Some db0 ->
  invariant (run L ops db0).
Proof.
  intros Hd Hnew.
  assert (H0 : invariant db0).
  { unfold VectorDatabase_new in Hnew.
    destruct (Z.eqb_spec dimension 0); [discriminate|].
    injection Hnew as <-. unfold invariant. cbn [dimension_ vectors_].
    split; [lia|]. split; constructor. }
  clear Hnew. revert db0 H0. unfold run.
  induction ops as [|op ops IH]; intros db Hinv; cbn [fold_left].
  - exact Hinv.
  - apply IH.
    destruct op as [id v|batch|id| |u file]; cbn [apply_mutation].
    + apply (invariant_preserved L no_junk db Hinv).
    + apply (invariant_preserved L no_junk db Hinv).
    + apply (invariant_preserved L no_junk db Hinv).
    + apply (invariant_preserved L no_junk db Hinv).
    + apply (invariant_preserved L u db Hinv).
Qed.

(** An instance: a short session on a store of dimension 1. *)
Lemma invariant_of_reachable_stores_witness :
  invariant
    (run front_layout
       [MInsert "a" [one]; MInsertBatch [("b"%string, [two])];
        MRemove "a"; MLoad no_junk (Some truncated_file)]
       (fresh 1 default_config)).
Proof.
  apply (invariant_of_reachable_stores front_layout 1 default_config).
  - lia.
  - reflexivity.
Defined.

(** X9: a store built by the constructor and changed only through insert,
    insert_batch, remove and clear never holds more than [max_vectors]
    records, whatever the calls and their order. *)
Theorem capacity_of_reachable_stores
  (L : Layout) (dimension : Z) (config : VectorDatabaseConfig)
  (db0 : VectorDatabase) (ops : list mutation) :
  0 <= max_vectors config ->
  VectorDatabase_new dimension config = Some db0 ->
  Forall (guarded (max_vectors config)) ops ->
  size (run L ops db0) <= max_vectors config.
Proof.
  intros Hmax Hnew Hops.
  assert (H0 : config_ db0 = config /\ size db0 <= max_vectors config).
  { unfold VectorDatabase_new in Hnew.
    destruct (dimension =? 0); [discriminate|].
    injection Hnew as <-. unfold size, um_size. cbn. auto. }
  clear Hnew. revert db0 H0. unfold run.
  induction Hops as [|op ops Hop _ IH]; intros db [Hc Hs]; cbn [fold_left].
  - exact Hs.
  - apply IH. split.
    + rewrite (proj1 (apply_mutation_keeps_config L db op)). exact Hc.
    + rewrite <- Hc in *.
      destruct (capacity_kept_by_other_mutators L db Hmax Hs)
        as [Hi [Hb [Hr Hcl]]].
      pose proof (apply_mutation_keeps_config L db op) as [Hk _].
      destruct op as [id v|batch|id| |u file];
        cbn [apply_mutation guarded] in *; try rewrite Hk.
      * specialize (Hi id v). rewrite Hk in Hi. exact Hi.
      * specialize (Hb batch ltac:(lia)). rewrite Hk in Hb. exact Hb.
      * specialize (Hr id). rewrite Hk in Hr. exact Hr.
      * exact Hcl.
      * contradiction.
Qed.

(** An instance: a store for one record offered two. *)
Lemma capacity_of_reachable_stores_witness :
  size (run front_layout
          [MInsert "a" [one]; MInsert "b" [two];
           MInsertBatch [("c"%string, [two])]; MRemove "a"]
          db_small)
  <= 1.
Proof.
  apply (capacity_of_reachable_stores front_layout 1 (config_ db_small)).
  - cbn. lia.
  - reflexivity.
  - repeat constructor; cbn; lia.
Defined.

(** ** search, for [k >= 1] *)

Lemma pq_push_perm (x : SearchResult) (q : priority_queue) :
  Permutation (pq_push x q) (x :: q).
Proof.
  induction q as [|y q IH]; cbn [pq_push].
  - apply Permutation_refl.
  - destruct (sr_gt x y).
    + eapply Permutation_trans; [apply perm_skip; exact IH | apply perm_swap].
    + apply Permutation_refl.
Qed.

(** The queue holds records that were offered, each at most as often as it
    was offered: what it holds, together with what it dropped, is what it
    was given. *)
Lemma search_scan_partition
  (db : VectorDatabase) (query : vec) (k : Z) (m : unordered_map) :
  forall pq pq',
    search_scan db query k m pq = Returned pq' ->
    exists dropped,
      Permutation (pq' ++ dropped) (pq ++ map (to_result db query) m).
Proof.
  induction m as [|e m IH]; intros pq pq'; cbn [search_scan map].
  - intros H. injection H as <-. exists []. apply Permutation_refl.
  - change {| sr_id := fst e;
              sr_distance := calculateDistance db query (snd e);
              sr_vector := snd e |} with (to_result db query e).
    destruct (pq_size pq <? k).
    + intros H. destruct (IH _ _ H) as [dropped P]. exists dropped.
      eapply Permutation_trans; [exact P|].
      eapply Permutation_trans;
        [apply Permutation_app_tail; apply pq_push_perm|].
      cbn [app]. apply Permutation_middle.
    + destruct pq as [|top pq]; cbn [pq_top hd_error pq_pop tl];
        [discriminate|].
      destruct (flt _ (sr_distance top)).
      * intros H. destruct (IH _ _ H) as [dropped P]. exists (top :: dropped).
        eapply Permutation_trans;
          [apply Permutation_sym; apply Permutation_middle|].
        cbn [app]. apply perm_skip.
        eapply Permutation_trans; [exact P|].
        eapply Permutation_trans;
          [apply Permutation_app_tail; apply pq_push_perm|].
        cbn [app]. apply Permutation_middle.
      * intros H. destruct (IH _ _ H) as [dropped P].
        exists (to_result db query e :: dropped).
        eapply Permutation_trans;
          [apply Permutation_sym; apply Permutation_middle|].
        eapply Permutation_trans; [apply perm_skip; exact P|].
        apply (Permutation_middle (top :: pq)).
Qed.

(** X10: for [k >= 1] and a query of the store's dimension, [search] returns
    (it never reads an empty queue) exactly [min(k, size())] results; they
    are stored records with their distances to the query, no record is
    reported more often than it is stored, and they come in order of
    non-decreasing distance when no distance is a NaN. *)
Theorem search_result_shape
  (db : VectorDatabase) (query : vec) (k : Z) :
  1 <= k -> validateVector db query = true ->
  exists results dropped,
    search db query k = Returned results
    /\ Z.of_nat (length results) = Z.min k (size db)
    /\ Permutation (results ++ dropped)
         (map (to_result db query) (vectors_ db))
    /\ (Forall ordered (map (to_result db query) (vectors_ db)) ->
        StronglySorted distance_le results).
Proof.
  intros Hk Hq.
  destruct (search_returns_min_k_size db query k Hk Hq)
    as [results [E [Hlen [_ Hsorted]]]].
  exists results.
  assert (Hpart : exists dropped,
             Permutation (results ++ dropped)
               (map (to_result db query) (vectors_ db))).
  { revert E. unfold search. rewrite Hq. cbn [negb].
    destruct (vectors_ db) as [|e m] eqn:Em.
    - intros H. injection H as <-. exists []. apply Permutation_refl.
    - destruct (search_scan db query k (e :: m) []) as [pq|] eqn:Es;
        [|discriminate].
      intros H. injection H as <-.
      destruct (search_scan_partition db query k (e :: m) [] pq Es)
        as [dropped P].
      exists dropped. rewrite pq_drain_id.
      eapply Permutation_trans; [|exact P].
      apply Permutation_app_tail. apply std_sort_perm. }
  destruct Hpart as [dropped P]. exists dropped. auto.
Qed.

(** An instance: the two nearest of three records. *)
Lemma search_result_shape_witness :
  exists results dropped,
    search db_abc origin 2 = Returned results
    /\ Z.of_nat (length results) = Z.min 2 (size db_abc)
    /\ Permutation (results ++ dropped)
         (map (to_result db_abc origin) (vectors_ db_abc)).
Proof.
  destruct (search_result_shape db_abc origin 2) as [rs [dr [E [Hl [P _]]]]].
  - lia.
  - reflexivity.
  - exists rs, dr. auto.
Defined.

(** X11: when [k] is at least [size()], [search] returns every stored
    record with its distance, each once. *)
Theorem search_with_large_k_returns_all
  (db : VectorDatabase) (query : vec) (k : Z) :
  1 <= k -> size db <= k -> validateVector db query = true ->
  exists results,
    search db query k = Returned results
    /\ Permutation results (map (to_result db query) (vectors_ db)).
Proof.
  intros Hk Hsize Hq.
  destruct (search_returns_min_k_size db query k Hk Hq)
    as [results [E [Hlen _]]].
  exists results. split; [exact E|].
  revert E Hlen. unfold search. rewrite Hq. cbn [negb].
  destruct (vectors_ db) as [|e m] eqn:Em.
  - intros H _. injection H as <-. apply Permutation_refl.
  - destruct (search_scan db query k (e :: m) []) as [pq|] eqn:Es;
      [|discriminate].
    intros H Hlen. injection H as <-.
    destruct (search_scan_partition db query k (e :: m) [] pq Es)
      as [dropped P].
    rewrite pq_drain_id in *.
    assert (Hd : dropped = []).
    { pose proof (Permutation_length P) as Hl.
      pose proof (Permutation_length (std_sort_perm pq)) as Hl'.
      rewrite length_app in Hl. cbn [app] in Hl. rewrite length_map in Hl.
      unfold size, um_size in *. rewrite Em in *.
      destruct dropped; [reflexivity|]. exfalso. cbn [length] in *. lia. }
    subst dropped. rewrite app_nil_r in P.
    eapply Permutation_trans; [apply std_sort_perm | exact P].
Qed.

(** An instance: five results asked of a store of three. *)
Lemma search_with_large_k_returns_all_witness :
  exists results,
    search db_abc origin 5 = Returned results
    /\ Permutation results (map (to_result db_abc origin) (vectors_ db_abc)).
Proof.
  apply (search_with_large_k_returns_all db_abc origin 5).
  - lia.
  - cbn. lia.
  - reflexivity.
Defined.

(** X12: for [k >= 1] the result of [search] is empty only when the query
    has the wrong dimension or the store is empty; in both cases it is empty
    for every [k], zero included. *)
Theorem search_empty_iff (db : VectorDatabase) (query : vec) (k : Z) :
  1 <= k ->
  (search db query k = Returned [] <->
   validateVector db query = false \/ vectors_ db = [])
  /\ (validateVector db query = false \/ vectors_ db = [] ->
      forall k', search db query k' = Returned []).
Proof.
  intros Hk.
  assert (Himp : validateVector db query = false \/ vectors_ db = [] ->
                 forall k', search db query k' = Returned []).
  { intros [H|H] k'; unfold search; rewrite H; cbn [negb]; [reflexivity|].
    destruct (negb (validateVector db query)); reflexivity. }
  split; [|exact Himp]. split; [|intros H; apply Himp; exact H].
  intros H. destruct (validateVector db query) eqn:Hq; [|left; reflexivity].
  right. destruct (search_returns_min_k_size db query k Hk Hq)
    as [results [E [Hlen _]]].
  rewrite H in E. injection E as <-. cbn [length] in Hlen.
  unfold size, um_size in Hlen. destruct (vectors_ db); [reflexivity|].
  cbn [length] in Hlen. lia.
Qed.

(** An instance: a query of the wrong dimension. *)
Lemma search_empty_iff_witness :
  search db_abc [zero] 3 = Returned [] <->
  validateVector db_abc [zero] = false \/ vectors_ db_abc = [].
Proof.
  apply (proj1 (search_empty_iff db_abc [zero] 3 ltac:(lia))).
Defined.

Lemma fle_refl (a : float) : is_nan a = false -> fle a a = true.
Proof.
  intros Ha. unfold is_nan, fle, SFleb in *.
  destruct (SFcompare_defined (decode a) (decode a)) as [c Hc].
  - intros E. rewrite E in Ha. discriminate.
  - intros E. rewrite E in Ha. discriminate.
  - pose proof (SFcompare_antisym _ _ _ Hc) as Hc'. rewrite Hc in Hc'.
    rewrite Hc. destruct c; try reflexivity. discriminate.
Qed.

(** Whatever the scan was offered, the queue ends with a record that is at
    most as far. *)
Lemma search_scan_dominates
  (db : VectorDatabase) (query : vec) (k : Z) (m : unordered_map) :
  Forall ordered (map (to_result db query) m) ->
  forall pq pq',
    Forall ordered pq ->
    search_scan db query k m pq = Returned pq' ->
    forall s, In s pq \/ In s (map (to_result db query) m) ->
              exists t, In t pq' /\ distance_le t s.
Proof.
  induction m as [|e m IH]; intros Hm pq pq' Hpq; cbn [search_scan map].
  - intros H s [Hs|[]]. injection H as <-. exists s. split; [exact Hs|].
    apply fle_refl. apply (proj1 (Forall_forall _ _) Hpq). exact Hs.
  - change {| sr_id := fst e;
              sr_distance := calculateDistance db query (snd e);
              sr_vector := snd e |} with (to_result db query e).
    cbn [map] in Hm. inversion Hm as [|? ? Hc Hm']; subst.
    set (c := to_result db query e) in *.
    assert (Hpush : forall q, Forall ordered q -> Forall ordered (pq_push c q)).
    { intros q Hq. eapply Permutation_Forall;
        [apply Permutation_sym; apply pq_push_perm|].
      constructor; assumption. }
    destruct (pq_size pq <? k).
    + intros H s Hs. apply (IH Hm' _ _ (Hpush pq Hpq) H).
      destruct Hs as [Hs|[Hs|Hs]].
      * left. apply pq_push_In. right. exact Hs.
      * left. apply pq_push_In. left. symmetry. exact Hs.
      * right. exact Hs.
    + destruct pq as [|top pq]; cbn [pq_top hd_error pq_pop tl];
        [discriminate|].
      inversion Hpq as [|? ? Htop Hrest]; subst.
      change (calculateDistance db query (snd e)) with (sr_distance c).
      destruct (flt (sr_distance c) (sr_distance top)) eqn:Elt.
      * intros H s Hs.
        pose proof (IH Hm' _ _ (Hpush pq Hrest) H) as Hdom.
        destruct Hs as [[Hs|Hs]|[Hs|Hs]].
        -- subst s.
           destruct (Hdom c) as [t [Ht Hle]];
             [left; apply pq_push_In; left; reflexivity|].
           exists t. split; [exact Ht|].
           unfold distance_le in *.
           eapply fle_trans; [exact Hle | apply flt_fle; exact Elt].
        -- apply Hdom. left. apply pq_push_In. right. exact Hs.
        -- apply Hdom. left. apply pq_push_In. left. symmetry. exact Hs.
        -- apply Hdom. right. exact Hs.
      * intros H s Hs.
        pose proof (IH Hm' _ _ Hpq H) as Hdom.
        destruct Hs as [Hs|[Hs|Hs]].
        -- apply Hdom. left. exact Hs.
        -- subst s.
           destruct (Hdom top) as [t [Ht Hle]]; [left; left; reflexivity|].
           exists t. split; [exact Ht|].
           unfold distance_le in *.
           eapply fle_trans; [exact Hle|].
           apply not_flt_fle; assumption.
        -- apply Hdom. right. exact Hs.
Qed.

(** X13: for [k >= 1], a query of the store's dimension, a non-empty store
    and no NaN among the distances, the first result of [search] is a
    nearest record: no stored record is closer to the query. *)
Theorem search_first_is_nearest
  (db : VectorDatabase) (query : vec) (k : Z) :
  1 <= k -> validateVector db query = true -> vectors_ db <> [] ->
  Forall ordered (map (to_result db query) (vectors_ db)) ->
  exists first rest,
    search db query k = Returned (first :: rest)
    /\ forall id v, In (id, v) (vectors_ db) ->
         fle (sr_distance first) (calculateDistance db query v) = true.
Proof.
  intros Hk Hq Hne Hord.
  destruct (search_returns_min_k_size db query k Hk Hq)
    as [results [E [Hlen [Hin Hsorted]]]].
  specialize (Hsorted Hord).
  destruct results as [|first rest].
  { exfalso. cbn [length] in Hlen. unfold size, um_size in Hlen.
    destruct (vectors_ db); [congruence|]. cbn [length] in Hlen. lia. }
  exists first, rest. split; [exact E|].
  intros id v Hstored.
  revert E. unfold search. rewrite Hq. cbn [negb].
  destruct (vectors_ db) as [|e m] eqn:Em; [congruence|].
  destruct (search_scan db query k (e :: m) []) as [pq|] eqn:Es;
    [|discriminate].
  rewrite pq_drain_id. intros H. injection H as Hres.
  destruct (search_scan_dominates db query k (e :: m) Hord [] pq
              ltac:(constructor) Es (to_result db query (id, v)))
    as [t [Ht Hle]].
  { right. apply in_map. exact Hstored. }
  assert (Ht' : In t (first :: rest)).
  { rewrite <- Hres. apply (Permutation_in _ (Permutation_sym (std_sort_perm pq))).
    exact Ht. }
  unfold distance_le in Hle. cbn [to_result sr_distance snd] in Hle.
  inversion Hsorted as [|? ? _ Hall]; subst.
  destruct Ht' as [<-|Ht'].
  - exact Hle.
  - eapply fle_trans; [|exact Hle].
    apply (proj1 (Forall_forall _ _) Hall). exact Ht'.
Qed.

Lemma db_abc_ordered :
  Forall ordered (map (to_result db_abc origin) (vectors_ db_abc)).
Proof. repeat constructor. Qed.

(** An instance: the nearest of the three records. *)
Lemma search_first_is_nearest_witness :
  exists first rest,
    search db_abc origin 2 = Returned (first :: rest)
    /\ forall id v, In (id, v) (vectors_ db_abc) ->
         fle (sr_distance first) (calculateDistance db_abc origin v) = true.
Proof.
  apply (search_first_is_nearest db_abc origin 2).
  - lia.
  - reflexivity.
  - discriminate.
  - exact db_abc_ordered.
Defined.

(** ** save *)








(** ** load *)

(** X16: [load] returns false and leaves the store exactly as it was when the
    file cannot be opened, and when the file opens with a dimension header
    different from the store's dimension, whatever follows the header. *)
Theorem load_rejects_before_mutation
  (L : Layout) (u : uninitialised) (db : VectorDatabase) :
  load L u db None = (false, db)
  /\ forall d rest,
       0 <= d < size_t_modulus -> d <> dimension_ db ->
       load L u db (Some (size_t_bytes d ++ rest)) = (false, db).
Proof.
  split; [apply load_unopened|]. intros d rest Hd Hne.
  apply load_dimension_mismatch.
  rewrite read_size_t_exact by exact Hd. exact Hne.
Qed.

(** An instance: a file for dimension 1 offered to the store of dimension 3. *)
Lemma load_rejects_before_mutation_witness :
  load front_layout no_junk db_abc (Some (size_t_bytes 1 ++ truncated_file))
  = (false, db_abc).
Proof.
  apply (proj2 (load_rejects_before_mutation front_layout no_junk db_abc)).
  - unfold size_t_modulus. lia.
  - discriminate.
Defined.



Lemma ifstream_read_good_inv (n : nat) (buf : list byte) (s : ifstream) :
  in_good (snd (ifstream_read n buf s)) = true ->
  in_good s = true
  /\ (n <= length (in_rest s))%nat
  /\ ifstream_read n buf s
     = (firstn n (in_rest s) ++ skipn n buf,
        {| in_rest := skipn n (in_rest s); in_good := true |}).
Proof.
  unfold ifstream_read. destruct (in_good s) eqn:G; cbn [snd in_good].
  - intros H. apply Nat.leb_le in H. split; [reflexivity|].
    split; [exact H|]. rewrite (proj2 (Nat.leb_le _ _) H).
    rewrite length_firstn, Nat.min_l by exact H. reflexivity.
  - rewrite G. discriminate.
Qed.

Lemma read_size_t_good_inv (before : Z) (s : ifstream) :
  in_good (snd (read_size_t before s)) = true ->
  in_good s = true
  /\ in_rest s
     = size_t_bytes (fst (read_size_t before s))
       ++ in_rest (snd (read_size_t before s))
  /\ 0 <= fst (read_size_t before s) < size_t_modulus.
Proof.
  unfold read_size_t.
  pose proof (ifstream_read_good_inv sizeof_size_t (size_t_bytes before) s)
    as Hinv.
  destruct (ifstream_read sizeof_size_t (size_t_bytes before) s) as [bs s'].
  cbn [fst snd] in *. intros H. destruct (Hinv H) as [Hg [Hn Heq]].
  pose proof (f_equal fst Heq) as Hbs. pose proof (f_equal snd Heq) as Hs'.
  cbn [fst snd] in Hbs, Hs'. subst bs s'. cbn [in_rest].
  rewrite (skipn_all2 (size_t_bytes before))
    by (rewrite size_t_bytes_length; lia).
  rewrite app_nil_r.
  assert (Hlen : length (firstn sizeof_size_t (in_rest s)) = sizeof_size_t).
  { rewrite length_firstn. lia. }
  split; [exact Hg|]. split.
  - unfold size_t_bytes. rewrite <- Hlen at 1. rewrite split_le_combine.
    symmetry. apply firstn_skipn.
  - pose proof (le_combine_bound (firstn sizeof_size_t (in_rest s))) as Hb.
    rewrite Hlen in Hb. exact Hb.
Qed.

Lemma load_records_sticky (L : Layout) (dim : Z) (u : uninitialised)
  (count : nat) :
  forall i s m,
    in_good (fst (load_records L dim u count i s m)) = true ->
    in_good s = true.
Proof.
  induction count as [|count IH]; intros i s m; cbn [load_records].
  - intros H. exact H.
  - destruct (read_size_t (u_id_length u i) s) as [id_length s1] eqn:E1.
    destruct (ifstream_read (Z.to_nat id_length) _ s1) as [id_bytes s2] eqn:E2.
    destruct (ifstream_read _ _ s2) as [vector_bytes s3] eqn:E3.
    intros H. apply IH in H.
    assert (H2 : in_good s2 = true).
    { pose proof (ifstream_read_good_inv
                    (Z.to_nat (size_t_mul dim (Z.of_nat sizeof_float)))
                    (vec_bytes (repeat zero (Z.to_nat dim))) s2) as Hi.
      rewrite E3 in Hi. apply Hi. exact H. }
    assert (H1 : in_good s1 = true).
    { pose proof (ifstream_read_good_inv (Z.to_nat id_length)
                    (repeat Byte.x00 (Z.to_nat id_length)) s1) as Hi.
      rewrite E2 in Hi. apply Hi. exact H2. }
    pose proof (read_size_t_good_inv (u_id_length u i) s) as Hi.
    rewrite E1 in Hi. apply Hi. exact H1.
Qed.

Lemma load_records_size (L : Layout) (dim : Z) (u : uninitialised)
  (count : nat) :
  forall i s m,
    um_size (snd (load_records L dim u count i s m))
    <= um_size m + Z.of_nat count.
Proof.
  induction count as [|count IH]; intros i s m; cbn [load_records].
  - cbn [snd]. lia.
  - destruct (read_size_t (u_id_length u i) s) as [id_length s1].
    destruct (ifstream_read (Z.to_nat id_length) _ s1) as [id_bytes s2].
    destruct (ifstream_read _ _ s2) as [vector_bytes s3].
    eapply Z.le_trans; [apply IH|].
    pose proof (um_assign_size_le L (string_of_list_byte id_bytes)
                  (vec_of_bytes (Z.to_nat dim) vector_bytes) m).
    lia.
Qed.

(** X18: [load] returns true only for a file that begins with the store's
    own dimension followed by a record count, and the store then holds at
    most that many records. *)
Theorem load_success_read_header
  (L : Layout) (u : uninitialised) (db : VectorDatabase)
  (content : list byte) :
  fst (load L u db (Some content)) = true ->
  exists count rest,
    content = size_t_bytes (dimension_ db) ++ size_t_bytes count ++ rest
    /\ 0 <= count < size_t_modulus
    /\ size (snd (load L u db (Some content))) <= count.
Proof.
  unfold load.
  pose proof (read_size_t_good_inv (u_file_dimension u)
                {| in_rest := content; in_good := true |}) as H1.
  destruct (read_size_t (u_file_dimension u) _) as [file_dimension s1].
  cbn [fst snd in_rest] in H1.
  destruct (Z.eqb_spec file_dimension (dimension_ db)) as [Ed|Ed];
    cbn [negb]; [|discriminate].
  pose proof (read_size_t_good_inv (u_vector_count u) s1) as H2.
  destruct (read_size_t (u_vector_count u) s1) as [vector_count s2].
  cbn [fst snd] in H2.
  pose proof (load_records_sticky L (dimension_ db) u
                (Z.to_nat vector_count) O s2 []) as Hst.
  pose proof (load_records_size L (dimension_ db) u
                (Z.to_nat vector_count) O s2 []) as Hsz.
  destruct (load_records L (dimension_ db) u (Z.to_nat vector_count) O s2 [])
    as [s3 m].
  cbn [fst snd] in *. intros Hgood.
  specialize (Hst Hgood). destruct (H2 Hst) as [Hg1 [Hr1 Hc]].
  destruct (H1 Hg1) as [_ [Hr0 _]].
  exists vector_count, (in_rest s2).
  split; [|split].
  - rewrite Hr0, Hr1, Ed. reflexivity.
  - exact Hc.
  - unfold size. cbn [with_vectors vectors_].
    unfold um_size in Hsz at 2. cbn [length] in Hsz. lia.
Qed.

(** An instance: the file of the two-record store. *)
Lemma load_success_read_header_witness :
  exists count rest,
    serialise db_two
    = size_t_bytes (dimension_ db_small) ++ size_t_bytes count ++ rest
    /\ 0 <= count < size_t_modulus
    /\ size (snd (load front_layout no_junk db_small
                    (Some (serialise db_two)))) <= count.
Proof.
  apply (load_success_read_header front_layout no_junk db_small).
  vm_compute. reflexivity.
Defined.

(** ** The distance computations *)

Section SpecFloatFacts.
Variables pr em : Z.

Lemma SFmul_comm (x y : spec_float) : SFmul pr em x y = SFmul pr em y x.
Proof.
  destruct x as [sx|sx| |sx mx ex], y as [sy|sy| |sy my ey]; cbn [SFmul];
    try reflexivity; try (rewrite (xorb_comm sx sy); reflexivity).
  rewrite (xorb_comm sx sy), (Pos.mul_comm mx my), (Z.add_comm ex ey).
  reflexivity.
Qed.

Lemma SFmul_self_abs (x y : spec_float) :
  SFabs x = SFabs y -> SFmul pr em x x = SFmul pr em y y.
Proof.
  destruct x as [sx|sx| |sx mx ex], y as [sy|sy| |sy my ey]; cbn [SFabs];
    intros H; try discriminate; try reflexivity; cbn [SFmul].
  - destruct sx, sy; reflexivity.
  - destruct sx, sy; reflexivity.
  - injection H as -> ->. destruct sx, sy; reflexivity.
Qed.

Lemma SFabs_binary_round_aux (s1 s2 : bool) (m e : Z) (l : location) :
  SFabs (binary_round_aux pr em s1 m e l)
  = SFabs (binary_round_aux pr em s2 m e l).
Proof.
  unfold binary_round_aux.
  destruct (shr_fexp pr em m e l) as [mrs' e'].
  destruct (shr_fexp pr em _ e' loc_Exact) as [mrs'' e''].
  destruct (shr_m mrs''); try reflexivity.
  destruct (e'' <=? em - pr); reflexivity.
Qed.

Lemma SFabs_binary_round (s1 s2 : bool) (m : positive) (e : Z) :
  SFabs (binary_round pr em s1 m e) = SFabs (binary_round pr em s2 m e).
Proof.
  unfold binary_round. destruct (shl_align m e _) as [mz ez].
  apply SFabs_binary_round_aux.
Qed.

Lemma SFabs_binary_normalize_opp (m e : Z) (sz : bool) :
  SFabs (binary_normalize pr em (- m) e sz)
  = SFabs (binary_normalize pr em m e sz).
Proof.
  destruct m as [|p|p]; cbn [Z.opp binary_normalize].
  - reflexivity.
  - apply SFabs_binary_round.
  - apply SFabs_binary_round.
Qed.

Lemma SFsub_abs_sym (x y : spec_float) :
  SFabs (SFsub pr em x y) = SFabs (SFsub pr em y x).
Proof.
  destruct x as [sx|sx| |sx mx ex], y as [sy|sy| |sy my ey]; cbn [SFsub];
    try reflexivity;
    try (destruct sx, sy; reflexivity).
  rewrite (Z.min_comm ey ex).
  set (A := cond_Zopp sx (Z.pos (fst (shl_align mx ex (Z.min ex ey))))).
  set (B := cond_Zopp sy (Z.pos (fst (shl_align my ey (Z.min ex ey))))).
  replace (B - A) with (- (A - B)) by lia.
  symmetry. apply SFabs_binary_normalize_opp.
Qed.

Lemma SFsub_self (x : spec_float) :
  match x with S754_zero _ | S754_finite _ _ _ => True | _ => False end ->
  SFsub pr em x x = S754_zero false.
Proof.
  destruct x as [s|s| |s m e]; cbn [SFsub]; intros H; try contradiction.
  - destruct s; reflexivity.
  - rewrite Z.sub_diag. reflexivity.
Qed.
End SpecFloatFacts.

Lemma fmul_comm (a b : float) : fmul a b = fmul b a.
Proof. unfold fmul. rewrite SFmul_comm. reflexivity. Qed.

Lemma sign_bit_testbit (s : bool) (i : Z) :
  i <> 31 -> Z.testbit (sign_bit s) i = false.
Proof.
  intros Hi. unfold sign_bit. destruct s; [|apply Z.bits_0].
  change 0x80000000 with (2 ^ 31). rewrite Z.pow2_bits_eqb by lia.
  apply Z.eqb_neq. congruence.
Qed.

Lemma encode_same_abs (z1 z2 : spec_float) (i : Z) :
  SFabs z1 = SFabs z2 -> i <> 31 ->
  Z.testbit (encode z1) i = Z.testbit (encode z2) i.
Proof.
  intros H Hi.
  destruct z1 as [s1|s1| |s1 m1 e1], z2 as [s2|s2| |s2 m2 e2];
    cbn [SFabs] in H; try discriminate; unfold encode.
  - rewrite !sign_bit_testbit by exact Hi. reflexivity.
  - rewrite !Z.lor_spec, !sign_bit_testbit by exact Hi. reflexivity.
  - reflexivity.
  - injection H as -> ->. destruct (Z.pos m2 <? 0x800000);
      rewrite !Z.lor_spec, !sign_bit_testbit by exact Hi; reflexivity.
Qed.

Lemma decode_same_abs (b1 b2 : float) :
  (forall i, i <> 31 -> Z.testbit b1 i = Z.testbit b2 i) ->
  SFabs (decode b1) = SFabs (decode b2).
Proof.
  intros H.
  assert (He : Z.land (Z.shiftr b1 23) 0xFF = Z.land (Z.shiftr b2 23) 0xFF).
  { apply Z.bits_inj'. intros i Hi.
    rewrite !Z.land_spec, !Z.shiftr_spec by exact Hi.
    change 0xFF with (Z.ones 8).
    destruct (Z.ltb_spec i 8).
    - rewrite H by lia. reflexivity.
    - rewrite Z.ones_spec_high by lia. rewrite !andb_false_r. reflexivity. }
  assert (Hm : Z.land b1 0x7FFFFF = Z.land b2 0x7FFFFF).
  { apply Z.bits_inj'. intros i Hi. rewrite !Z.land_spec.
    change 0x7FFFFF with (Z.ones 23).
    destruct (Z.ltb_spec i 23).
    - rewrite H by lia. reflexivity.
    - rewrite Z.ones_spec_high by lia. rewrite !andb_false_r. reflexivity. }
  unfold decode. cbv zeta. rewrite He, Hm.
  destruct (Z.land (Z.shiftr b2 23) 0xFF =? 0).
  - destruct (Z.land b2 0x7FFFFF =? 0); reflexivity.
  - destruct (Z.land (Z.shiftr b2 23) 0xFF =? 0xFF).
    + destruct (Z.land b2 0x7FFFFF =? 0); reflexivity.
    + reflexivity.
Qed.

Lemma fsub_swap_abs (x y : float) :
  SFabs (decode (fsub x y)) = SFabs (decode (fsub y x)).
Proof.
  apply decode_same_abs. intros i Hi. unfold fsub.
  apply encode_same_abs; [apply SFsub_abs_sym | exact Hi].
Qed.

Lemma fsub_swap_square (x y : float) :
  fmul (fsub x y) (fsub x y) = fmul (fsub y x) (fsub y x).
Proof.
  unfold fmul. f_equal. apply SFmul_self_abs. apply fsub_swap_abs.
Qed.

Lemma fsub_swap_fabs (x y : float) : fabs (fsub x y) = fabs (fsub y x).
Proof. unfold fabs. f_equal. apply fsub_swap_abs. Qed.

Lemma same_size_sym (a b : vec) : same_size a b = same_size b a.
Proof. unfold same_size. apply Nat.eqb_sym. Qed.

Lemma euclidean_loop_sym (a : vec) :
  forall b sum, euclidean_loop sum a b = euclidean_loop sum b a.
Proof.
  induction a as [|x a IH]; intros [|y b] sum; cbn [euclidean_loop];
    try reflexivity.
  rewrite fsub_swap_square. apply IH.
Qed.

Lemma manhattan_loop_sym (a : vec) :
  forall b sum, manhattan_loop sum a b = manhattan_loop sum b a.
Proof.
  induction a as [|x a IH]; intros [|y b] sum; cbn [manhattan_loop];
    try reflexivity.
  rewrite fsub_swap_fabs. apply IH.
Qed.

Lemma dot_product_loop_sym (a : vec) :
  forall b acc, dot_product_loop acc a b = dot_product_loop acc b a.
Proof.
  induction a as [|x a IH]; intros [|y b] acc; cbn [dot_product_loop];
    try reflexivity.
  rewrite fmul_comm. apply IH.
Qed.

Lemma cosine_loop_sym (a : vec) :
  forall b d na nb,
    length a = length b ->
    cosine_loop (d, nb, na) b a
    = (let '(d', na', nb') := cosine_loop (d, na, nb) a b in (d', nb', na')).
Proof.
  induction a as [|x a IH]; intros [|y b] d na nb Hlen; cbn [cosine_loop];
    try discriminate; try reflexivity.
  rewrite (fmul_comm y x). apply IH. cbn [length] in Hlen. lia.
Qed.

Lemma calculateCosineDistance_sym (a b : vec) :
  calculateCosineDistance a b = calculateCosineDistance b a.
Proof.
  unfold calculateCosineDistance. rewrite (same_size_sym b a).
  destruct (same_size a b) eqn:E; cbn [negb]; [|reflexivity].
  apply Nat.eqb_eq in E.
  rewrite (cosine_loop_sym a b zero zero zero E).
  destruct (cosine_loop (zero, zero, zero) a b) as [[d na] nb].
  rewrite (orb_comm (feq nb zero)), (fmul_comm (fsqrt nb)). reflexivity.
Qed.

(** X19: each of the four distance computations, and so [calculateDistance]
    under every metric, returns the same float for (a, b) and for (b, a),
    whatever the vectors and their lengths (floats compared as the embedding
    holds them: bit patterns, all NaN results being one value). *)
Theorem distance_symmetric (db : VectorDatabase) (a b : vec) :
  calculateEuclideanDistance a b = calculateEuclideanDistance b a
  /\ calculateCosineDistance a b = calculateCosineDistance b a
  /\ calculateManhattanDistance a b = calculateManhattanDistance b a
  /\ calculateDotProductDistance a b = calculateDotProductDistance b a
  /\ calculateDistance db a b = calculateDistance db b a.
Proof.
  assert (He : calculateEuclideanDistance a b = calculateEuclideanDistance b a).
  { unfold calculateEuclideanDistance.
    rewrite (same_size_sym b a), (euclidean_loop_sym a b). reflexivity. }
  assert (Hm : calculateManhattanDistance a b = calculateManhattanDistance b a).
  { unfold calculateManhattanDistance.
    rewrite (same_size_sym b a), (manhattan_loop_sym a b). reflexivity. }
  assert (Hd : calculateDotProductDistance a b
               = calculateDotProductDistance b a).
  { unfold calculateDotProductDistance.
    rewrite (same_size_sym b a), (dot_product_loop_sym a b). reflexivity. }
  pose proof (calculateCosineDistance_sym a b) as Hc.
  repeat split; try assumption.
  unfold calculateDistance. destruct (distance_metric (config_ db));
    assumption.
Qed.

Lemma fsub_self (x : float) : float_finite x -> fsub x x = zero.
Proof.
  unfold float_finite, fsub. intros H.
  rewrite SFsub_self by exact H. reflexivity.
Qed.

Lemma euclidean_loop_self (v : vec) :
  Forall float_finite v -> euclidean_loop zero v v = zero.
Proof.
  induction 1 as [|x v Hx _ IH]; cbn [euclidean_loop].
  - reflexivity.
  - rewrite (fsub_self x Hx).
    replace (fadd zero (fmul zero zero)) with zero by (vm_compute; reflexivity).
    exact IH.
Qed.

Lemma manhattan_loop_self (v : vec) :
  Forall float_finite v -> manhattan_loop zero v v = zero.
Proof.
  induction 1 as [|x v Hx _ IH]; cbn [manhattan_loop].
  - reflexivity.
  - rewrite (fsub_self x Hx).
    replace (fadd zero (fabs zero)) with zero by (vm_compute; reflexivity).
    exact IH.
Qed.

(** X20: the Euclidean and the Manhattan distance of a vector to itself are
    exactly [0.0f] when no component is an infinity or a NaN (an infinite
    component gives inf - inf, a NaN). *)
Theorem self_distance_is_zero (v : vec) :
  Forall float_finite v ->
  calculateEuclideanDistance v v = zero
  /\ calculateManhattanDistance v v = zero.
Proof.
  intros H. unfold calculateEuclideanDistance, calculateManhattanDistance,
    same_size.
  rewrite Nat.eqb_refl. cbn [negb].
  rewrite (euclidean_loop_self v H), (manhattan_loop_self v H).
  split; vm_compute; reflexivity.
Qed.

(** An instance: the vector (1, 2). *)
Lemma self_distance_is_zero_witness :
  calculateEuclideanDistance [one; two] [one; two] = zero
  /\ calculateManhattanDistance [one; two] [one; two] = zero.
Proof.
  apply (self_distance_is_zero [one; two]).
  repeat constructor.
Defined.

Lemma fmul_zero_self (x : float) : float_is_zero x -> fmul x x = zero.
Proof.
  intros [s Hs]. unfold fmul. rewrite Hs. cbn [SFmul].
  destruct s; reflexivity.
Qed.

Lemma cosine_loop_zero_left (a : vec) :
  Forall float_is_zero a ->
  forall b d nb,
    exists d' nb', cosine_loop (d, zero, nb) a b = (d', zero, nb').
Proof.
  induction 1 as [|x a Hx _ IH]; intros b d nb.
  - exists d, nb. destruct b; reflexivity.
  - destruct b as [|y b]; cbn [cosine_loop].
    + exists d, nb. reflexivity.
    + rewrite (fmul_zero_self x Hx).
      replace (fadd zero zero) with zero by (vm_compute; reflexivity).
      apply IH.
Qed.

(** X21: the cosine distance between a vector whose components are all zero
    (of either sign) and any vector of the same length is exactly [1.0f]:
    the division by the zero norm is never performed. *)
Theorem cosine_distance_of_zero_vector (a b : vec) :
  length a = length b ->
  Forall float_is_zero a ->
  calculateCosineDistance a b = one
  /\ calculateCosineDistance b a = one.
Proof.
  intros Hlen Hz.
  assert (H : calculateCosineDistance a b = one).
  { unfold calculateCosineDistance, same_size.
    rewrite (proj2 (Nat.eqb_eq _ _) Hlen). cbn [negb].
    destruct (cosine_loop_zero_left a Hz b zero zero) as [d [nb ->]].
    replace (feq zero zero) with true by (vm_compute; reflexivity).
    reflexivity. }
  split; [exact H|]. rewrite calculateCosineDistance_sym. exact H.
Qed.

(** An instance: the zero vector against (1, 2). *)
Lemma cosine_distance_of_zero_vector_witness :
  calculateCosineDistance [zero; 0x80000000] [one; two] = one.
Proof.
  apply (cosine_distance_of_zero_vector [zero; 0x80000000] [one; two]).
  - reflexivity.
  - repeat constructor; [exists false | exists true]; reflexivity.
Defined.

(** ** VectorUtils *)



Lemma add_loop_length (a : vec) :
  forall b, length a = length b ->
            length (VectorUtils.add_loop a b) = length a.
Proof.
  induction a as [|x a IH]; intros [|y b] H; cbn [VectorUtils.add_loop length] in *;
    try discriminate; try reflexivity.
  rewrite IH by lia. reflexivity.
Qed.





Lemma magnitude_loop_zero (v : vec) :
  Forall float_is_zero v -> VectorUtils.magnitude_loop zero v = zero.
Proof.
  induction 1 as [|x v Hx _ IH]; cbn [VectorUtils.magnitude_loop].
  - reflexivity.
  - rewrite (fmul_zero_self x Hx).
    replace (fadd zero zero) with zero by (vm_compute; reflexivity).
    exact IH.
Qed.

Lemma normalize_length (v : vec) :
  length (VectorUtils.normalize v) = length v.
Proof.
  unfold VectorUtils.normalize.
  destruct (feq _ zero); [reflexivity | apply length_map].
Qed.

(** X23: [VectorUtils::normalize] returns a vector of the size of its
    argument, and it returns a vector of zeros (of either sign) unchanged
    instead of dividing by its zero magnitude. *)
Theorem normalize_spec (v : vec) :
  length (VectorUtils.normalize v) = length v
  /\ (Forall float_is_zero v -> VectorUtils.normalize v = v).
Proof.
  split; [apply normalize_length|].
  unfold VectorUtils.normalize, VectorUtils.calculateMagnitude.
  - intros H. rewrite (magnitude_loop_zero v H).
    replace (feq (fsqrt zero) zero) with true by (vm_compute; reflexivity).
    reflexivity.
Qed.

(** An instance: the zero vector of dimension 3. *)
Lemma normalize_spec_witness : VectorUtils.normalize origin = origin.
Proof.
  apply (proj2 (normalize_spec origin)).
  repeat constructor; exists false; reflexivity.
Defined.

(** X24: the VectorUtils operations keep the dimension: for vectors the
    store accepts, [add] does not throw and its result, like those of
    [normalize] and [multiply], is accepted by the store (so it can be
    inserted or used as a query). *)
Theorem VectorUtils_results_validate
  (db : VectorDatabase) (a b : vec) (scalar : float) :
  validateVector db a = true -> validateVector db b = true ->
  (exists r, VectorUtils.add a b = Some r /\ validateVector db r = true)
  /\ validateVector db (VectorUtils.normalize a) = true
  /\ validateVector db (VectorUtils.multiply a scalar) = true.
Proof.
  intros Ha Hb.
  pose proof (proj1 (validateVector_iff db a) Ha) as La.
  pose proof (proj1 (validateVector_iff db b) Hb) as Lb.
  assert (E : length a = length b) by lia.
  split; [|split].
  - exists (VectorUtils.add_loop a b). split.
    + unfold VectorUtils.add, same_size.
      rewrite (proj2 (Nat.eqb_eq _ _) E). reflexivity.
    + apply validateVector_iff. rewrite add_loop_length by exact E. exact La.
  - apply validateVector_iff. rewrite normalize_length. exact La.
  - apply validateVector_iff. unfold VectorUtils.multiply.
    rewrite length_map. exact La.
Qed.

(** An instance: two vectors of the three-record store. *)
Lemma VectorUtils_results_validate_witness :
  validateVector db_abc (VectorUtils.normalize [two; zero; zero]) = true.
Proof.
  refine (proj1 (proj2 (VectorUtils_results_validate db_abc [two; zero; zero]
                          origin one _ _))); reflexivity.
Defined.

(** ** Random test data *)

(** *** The order of the keys of a [std::map] *)

Lemma str_lt_trans (a b c : string) :
  String.compare a b = Lt -> String.compare b c = Lt ->
  String.compare a c = Lt.
Proof.
  intros H1 H2.
  apply OrderedTypeEx.String_as_OT.cmp_lt in H1.
  apply OrderedTypeEx.String_as_OT.cmp_lt in H2.
  apply OrderedTypeEx.String_as_OT.cmp_lt.
  exact (OrderedTypeEx.String_as_OT.lt_trans _ _ _ H1 H2).
Qed.

Lemma str_lt_irrefl (a : string) : String.compare a a <> Lt.
Proof.
  pose proof (proj2 (OrderedTypeEx.String_as_OT.cmp_eq a a) eq_refl) as E.
  change (String.compare a a = Eq) in E. rewrite E. discriminate.
Qed.

Lemma str_gt_lt (a b : string) :
  String.compare a b = Gt -> String.compare b a = Lt.
Proof.
  intros H. rewrite String.compare_antisym, H. reflexivity.
Qed.

Lemma map_sorted_NoDup (m : std_map) : map_sorted m -> NoDup (map fst m).
Proof.
  unfold map_sorted. induction 1 as [|a l _ IH Hall]; constructor.
  - intros Hin. rewrite Forall_forall in Hall.
    exact (str_lt_irrefl a (Hall a Hin)).
  - exact IH.
Qed.

Lemma map_assign_keys (id : string) (v : vec) (m : std_map) (k : string) :
  In k (map fst (map_assign id v m)) <-> k = id \/ In k (map fst m).
Proof.
  induction m as [|[k0 w] m IH]; cbn [map_assign map fst In].
  - split; [intros [H|[]]; left; congruence | intros [H|[]]; left; congruence].
  - destruct (String.compare id k0) eqn:C; cbn [map fst In].
    + apply String.compare_eq_iff in C. subst k0.
      split; [intros [H|H]; [left; congruence | right; right; exact H]
             | intros [H|[H|H]]; [left; congruence | left; exact H
                                  | right; exact H]].
    + split; [intros [H|H]; [left; congruence | right; exact H]
             | intros [H|H]; [left; congruence | right; exact H]].
    + rewrite IH. tauto.
Qed.

Lemma map_assign_Forall (P : string * vec -> Prop)
  (id : string) (v : vec) (m : std_map) :
  Forall P m -> P (id, v) -> Forall P (map_assign id v m).
Proof.
  intros Hm Hp. induction Hm as [|[k0 w] m H0 Hm IH]; cbn [map_assign].
  - constructor; [exact Hp | constructor].
  - destruct (String.compare id k0) eqn:C.
    + apply String.compare_eq_iff in C. subst k0.
      constructor; assumption.
    + constructor; [exact Hp | constructor; assumption].
    + constructor; assumption.
Qed.

Lemma map_assign_sorted (id : string) (v : vec) (m : std_map) :
  map_sorted m -> map_sorted (map_assign id v m).
Proof.
  unfold map_sorted.
  induction m as [|[k0 w] m IH]; cbn [map_assign map fst]; intros Hs.
  - constructor; constructor.
  - inversion Hs as [|? ? Hs' Hall]; subst.
    destruct (String.compare id k0) eqn:C; cbn [map fst].
    + exact Hs.
    + constructor; [exact Hs|]. constructor; [exact C|].
      eapply Forall_impl; [|exact Hall]. intros a Ha.
      exact (str_lt_trans _ _ _ C Ha).
    + constructor; [exact (IH Hs')|].
      apply Forall_forall. intros a Ha.
      apply map_assign_keys in Ha. destruct Ha as [->|Ha].
      * apply str_gt_lt. exact C.
      * rewrite Forall_forall in Hall. exact (Hall a Ha).
Qed.

Lemma map_assign_length (id : string) (v : vec) (m : std_map) :
  ~ In id (map fst m) -> length (map_assign id v m) = S (length m).
Proof.
  induction m as [|[k0 w] m IH]; cbn [map_assign map fst In length];
    intros Hnot.
  - reflexivity.
  - destruct (String.compare id k0) eqn:C; cbn [length].
    + apply String.compare_eq_iff in C. subst k0. tauto.
    + reflexivity.
    + rewrite IH by tauto. reflexivity.
Qed.

(** *** Batches built by assignments *)

Lemma batch_extends_nil (db : VectorDatabase) (m : std_map) :
  batch_extends db [] m m.
Proof.
  unfold batch_extends. repeat split; try tauto.
  cbn [In]. tauto.
Qed.

Lemma batch_extends_assign
  (db : VectorDatabase) (id : string) (v : vec) (m : std_map) :
  entry_valid db (id, v) -> batch_extends db [id] m (map_assign id v m).
Proof.
  intros Hv. unfold batch_extends. split; [|split; [|split]].
  - apply map_assign_sorted.
  - intros H. apply map_assign_Forall; assumption.
  - intros k. rewrite map_assign_keys. cbn [In]. intuition congruence.
  - intros _ Hnew. cbn [length Nat.add]. apply map_assign_length.
    apply Hnew. left. reflexivity.
Qed.

Lemma NoDup_app_disjoint (l1 l2 : list string) :
  NoDup (l1 ++ l2) -> forall a, In a l1 -> ~ In a l2.
Proof.
  induction l1 as [|x l1 IH]; cbn [app In]; intros Hnd a Ha.
  - destruct Ha.
  - inversion Hnd as [|? ? Hx Hnd']; subst. destruct Ha as [->|Ha].
    + intros H2. apply Hx. apply in_or_app. right. exact H2.
    + exact (IH Hnd' a Ha).
Qed.

Lemma batch_extends_trans
  (db : VectorDatabase) (ids1 ids2 : list string) (m0 m1 m2 : std_map) :
  batch_extends db ids1 m0 m1 -> batch_extends db ids2 m1 m2 ->
  batch_extends db (ids1 ++ ids2) m0 m2.
Proof.
  intros (S1 & F1 & K1 & N1) (S2 & F2 & K2 & N2).
  unfold batch_extends. split; [|split; [|split]].
  - auto.
  - auto.
  - intros k. rewrite K2, K1, in_app_iff. tauto.
  - intros Hnd Hnew. rewrite length_app.
    rewrite N2, N1.
    + lia.
    + exact (NoDup_app_remove_r _ _ Hnd).
    + intros k Hk. apply Hnew. apply in_or_app. left. exact Hk.
    + exact (NoDup_app_remove_l _ _ Hnd).
    + intros k Hk Hin. apply K1 in Hin. destruct Hin as [Hin|Hin].
      * exact (NoDup_app_disjoint _ _ Hnd k Hin Hk).
      * apply (Hnew k); [apply in_or_app; right; exact Hk | exact Hin].
Qed.

(** *** The generated ids *)

Lemma to_uint_nonnil (n : N) : N.to_uint n <> Decimal.Nil.
Proof.
  destruct n as [|p]; cbn [N.to_uint].
  - discriminate.
  - apply DecimalPos.Unsigned.to_uint_nonnil.
Qed.

Lemma to_string_inj (a b : Z) :
  0 <= a -> 0 <= b -> to_string a = to_string b -> a = b.
Proof.
  unfold to_string. intros Ha Hb E.
  apply (f_equal DecimalString.NilZero.uint_of_string) in E.
  rewrite !DecimalString.NilZero.usu in E by apply to_uint_nonnil.
  injection E as E. apply (f_equal N.of_uint) in E.
  rewrite !DecimalN.Unsigned.of_to in E.
  apply Z2N.inj; assumption.
Qed.

Lemma append_inj_l (p a b : string) :
  String.append p a = String.append p b -> a = b.
Proof.
  induction p as [|c p IH]; cbn [String.append]; intros E.
  - exact E.
  - injection E as E. exact (IH E).
Qed.

Lemma append_nonempty (p s : string) :
  s <> EmptyString -> String.append p s <> EmptyString.
Proof.
  destruct p; cbn [String.append]; [tauto | discriminate].
Qed.

Lemma random_id_nonempty (prefix : string) (i : Z) :
  random_id prefix i <> EmptyString.
Proof. apply append_nonempty. discriminate. Qed.

Lemma cluster_id_nonempty (prefix : string) (c i : Z) :
  cluster_id prefix c i <> EmptyString.
Proof. apply append_nonempty. discriminate. Qed.

Lemma random_id_inj (prefix : string) (a b : Z) :
  0 <= a -> 0 <= b -> random_id prefix a = random_id prefix b -> a = b.
Proof.
  unfold random_id. intros Ha Hb E.
  apply append_inj_l in E. cbn [String.append] in E. injection E as E.
  exact (to_string_inj a b Ha Hb E).
Qed.

(** The decimal digits hold no underscore, so that the two numbers of a
    cluster id can be read back. *)
Lemma digits_no_underscore (d : Decimal.uint) :
  ~ In "_"%char
      (list_ascii_of_string (DecimalString.NilEmpty.string_of_uint d)).
Proof.
  induction d; cbn [DecimalString.NilEmpty.string_of_uint list_ascii_of_string In];
    [tauto | intros [H|H]; [discriminate | exact (IHd H)] ..].
Qed.

Lemma to_string_no_underscore (i : Z) :
  ~ In "_"%char (list_ascii_of_string (to_string i)).
Proof.
  unfold to_string, DecimalString.NilZero.string_of_uint.
  destruct (N.to_uint (Z.to_N i)) eqn:E;
    try (rewrite <- E; apply digits_no_underscore).
  cbn [list_ascii_of_string In]. intros [H|[]]. discriminate.
Qed.

Lemma underscore_split_unique (s1 : string) :
  forall s2 t1 t2,
    ~ In "_"%char (list_ascii_of_string s1) ->
    ~ In "_"%char (list_ascii_of_string s2) ->
    String.append s1 (String "_" t1) = String.append s2 (String "_" t2) ->
    s1 = s2 /\ t1 = t2.
Proof.
  induction s1 as [|a s1 IH]; intros [|b s2] t1 t2 H1 H2 E;
    cbn [String.append list_ascii_of_string In] in *.
  - injection E as E. split; [reflexivity | exact E].
  - injection E as E1 E. exfalso. apply H2. left. symmetry. exact E1.
  - injection E as E1 E. exfalso. apply H1. left. exact E1.
  - injection E as E1 E. subst b.
    destruct (IH s2 t1 t2) as [-> ->]; [tauto | tauto | exact E |].
    split; reflexivity.
Qed.

Lemma cluster_id_inj (prefix : string) (c i c' i' : Z) :
  0 <= c -> 0 <= i -> 0 <= c' -> 0 <= i' ->
  cluster_id prefix c i = cluster_id prefix c' i' -> c = c' /\ i = i'.
Proof.
  unfold cluster_id. intros Hc Hi Hc' Hi' E.
  apply append_inj_l in E. cbn [String.append] in E. injection E as E.
  apply underscore_split_unique in E; try apply to_string_no_underscore.
  destruct E as [E1 E2]. split; apply to_string_inj; assumption.
Qed.

Lemma ids_from_In (f : Z -> string) (n : nat) :
  forall i k,
    In k (ids_from f i n) <-> exists j, i <= j < i + Z.of_nat n /\ k = f j.
Proof.
  induction n as [|n IH]; intros i k; cbn [ids_from In].
  - split; [tauto | intros [j [H _]]; lia].
  - rewrite IH. split.
    + intros [H|[j [H1 H2]]].
      * exists i. split; [lia | symmetry; exact H].
      * exists j. split; [lia | exact H2].
    + intros [j [H1 H2]]. destruct (Z.eq_dec j i) as [->|Hne].
      * left. symmetry. exact H2.
      * right. exists j. split; [lia | exact H2].
Qed.

Lemma ids_from_length (f : Z -> string) (n : nat) :
  forall i, length (ids_from f i n) = n.
Proof.
  induction n as [|n IH]; intros i; cbn [ids_from length];
    [|rewrite IH]; reflexivity.
Qed.

Lemma ids_from_NoDup (f : Z -> string) (n : nat) :
  (forall a b, 0 <= a -> 0 <= b -> f a = f b -> a = b) ->
  forall i, 0 <= i -> NoDup (ids_from f i n).
Proof.
  intros Hinj. induction n as [|n IH]; intros i Hi; cbn [ids_from];
    constructor.
  - intros Hin. apply ids_from_In in Hin. destruct Hin as [j [H1 H2]].
    apply Hinj in H2; lia.
  - apply IH. lia.
Qed.

Lemma cluster_ids_In (prefix : string) (per : nat) (centers : list vec) :
  forall c k,
    In k (cluster_ids prefix per c centers) <->
    exists c' i, c <= c' < c + Z.of_nat (length centers)
                 /\ 0 <= i < Z.of_nat per
                 /\ k = cluster_id prefix c' i.
Proof.
  induction centers as [|center centers IH]; intros c k;
    cbn [cluster_ids length].
  - split; [intros [] | intros (c' & i & H & _); lia].
  - rewrite in_app_iff, ids_from_In, IH. split.
    + intros [[i [H1 H2]]|(c' & i & H1 & H2 & H3)].
      * exists c, i. repeat split; try lia. exact H2.
      * exists c', i. repeat split; try lia. exact H3.
    + intros (c' & i & H1 & H2 & H3). destruct (Z.eq_dec c' c) as [->|Hne].
      * left. exists i. split; [lia | exact H3].
      * right. exists c', i. repeat split; try lia. exact H3.
Qed.

Lemma cluster_ids_length (prefix : string) (per : nat) (centers : list vec) :
  forall c, length (cluster_ids prefix per c centers)
            = (length centers * per)%nat.
Proof.
  induction centers as [|center centers IH]; intros c;
    cbn [cluster_ids length].
  - reflexivity.
  - rewrite length_app, ids_from_length, IH. cbn [Nat.mul]. reflexivity.
Qed.

Lemma cluster_ids_NoDup (prefix : string) (per : nat) (centers : list vec) :
  forall c, 0 <= c -> NoDup (cluster_ids prefix per c centers).
Proof.
  induction centers as [|center centers IH]; intros c Hc;
    cbn [cluster_ids].
  - constructor.
  - apply NoDup_app.
    + apply ids_from_NoDup; [|lia]. intros a b Ha Hb E.
      apply cluster_id_inj in E; tauto.
    + apply IH. lia.
    + intros k H1 H2. apply ids_from_In in H1. destruct H1 as [i [Hi ->]].
      apply cluster_ids_In in H2. destruct H2 as (c' & i' & H1 & H2 & H3).
      apply cluster_id_inj in H3; lia.
Qed.

(** *** The generators *)

Lemma random_fill_length (R : RandomSource) (n : nat) :
  forall dis gen, length (fst (VectorUtils.random_fill R n dis gen)) = n.
Proof.
  induction n as [|n IH]; intros dis gen; cbn [VectorUtils.random_fill].
  - reflexivity.
  - destruct (draw R dis gen) as [[x dis'] gen'].
    specialize (IH dis' gen').
    destruct (VectorUtils.random_fill R n dis' gen') as [rest gen''].
    cbn [fst length] in *. rewrite IH. reflexivity.
Qed.

Lemma unit_fill_length (R : RandomSource) (n : nat) :
  forall dis gen norm,
    length (fst (fst (VectorUtils.unit_fill R n dis gen norm))) = n.
Proof.
  induction n as [|n IH]; intros dis gen norm; cbn [VectorUtils.unit_fill].
  - reflexivity.
  - destruct (draw R dis gen) as [[x dis'] gen'].
    specialize (IH dis' gen' (fadd norm (fmul x x))).
    destruct (VectorUtils.unit_fill R n dis' gen' _) as [[rest norm'] gen''].
    cbn [fst length] in *. rewrite IH. reflexivity.
Qed.

Lemma gaussian_fill_length (R : RandomSource) (center : vec) :
  forall dis gen,
    length (fst (VectorUtils.gaussian_fill R center dis gen)) = length center.
Proof.
  induction center as [|c center IH]; intros dis gen;
    cbn [VectorUtils.gaussian_fill].
  - reflexivity.
  - destruct (draw R dis gen) as [[x dis'] gen'].
    specialize (IH dis' gen').
    destruct (VectorUtils.gaussian_fill R center dis' gen') as [rest gen''].
    cbn [fst length] in *. rewrite IH. reflexivity.
Qed.

Lemma generateRandomVector_length
  (R : RandomSource) (db : VectorDatabase) (lo hi : float) (gen : engine R) :
  0 <= dimension_ db ->
  Z.of_nat (length (fst (generateRandomVector R db lo hi gen)))
  = dimension_ db.
Proof.
  intros H. unfold generateRandomVector, VectorUtils.generateRandomVector.
  rewrite random_fill_length. lia.
Qed.

Lemma generateGaussianVector_some
  (R : RandomSource) (db : VectorDatabase) (center : vec) (std_dev : float)
  (gen : engine R) :
  Z.of_nat (length center) = dimension_ db ->
  exists v gen', generateGaussianVector R db center std_dev gen = Some (v, gen')
                 /\ Z.of_nat (length v) = dimension_ db.
Proof.
  intros H. unfold generateGaussianVector, VectorUtils.generateGaussianVector.
  rewrite (proj2 (Z.eqb_eq _ _) H). cbn [negb].
  pose proof (gaussian_fill_length R center
                (normal_distribution R zero std_dev) gen) as Hl.
  destruct (VectorUtils.gaussian_fill R center _ gen) as [v gen'].
  exists v, gen'. split; [reflexivity|]. cbn [fst] in Hl. lia.
Qed.

(** X25: every generated vector has the store's dimension and is accepted by
    [validateVector], whatever the random source yields: the uniform and
    the unit vector always, the Gaussian one whenever it is produced, and it
    is refused (an exception) exactly for a center that is not of the store's
    dimension. *)
Theorem generated_vectors_validate
  (R : RandomSource) (db : VectorDatabase) (min_val max_val std_dev : float)
  (center : vec) (gen : engine R) :
  0 <= dimension_ db ->
  validateVector db (fst (generateRandomVector R db min_val max_val gen))
  = true
  /\ validateVector db (fst (generateRandomUnitVector R db gen)) = true
  /\ (generateGaussianVector R db center std_dev gen = None
      <-> validateVector db center = false)
  /\ (forall v gen',
        generateGaussianVector R db center std_dev gen = Some (v, gen') ->
        validateVector db v = true).
Proof.
  intros Hd. split; [|split; [|split]].
  - apply validateVector_iff. apply generateRandomVector_length. exact Hd.
  - apply validateVector_iff.
    unfold generateRandomUnitVector, VectorUtils.generateRandomUnitVector.
    pose proof (unit_fill_length R (Z.to_nat (dimension_ db))
                  (normal_distribution R zero one) gen zero) as Hl.
    destruct (VectorUtils.unit_fill R _ _ gen zero) as [[vector norm] gen'].
    cbn [fst] in *.
    destruct (fgt (fsqrt norm) zero); rewrite ?length_map; lia.
  - unfold generateGaussianVector, validateVector.
    destruct (Z.of_nat (length center) =? dimension_ db); cbn [negb].
    + split; discriminate.
    + split; reflexivity.
  - intros v gen' H. apply validateVector_iff.
    unfold generateGaussianVector in H.
    destruct (Z.of_nat (length center) =? dimension_ db) eqn:E;
      cbn [negb] in H; [|discriminate].
    apply Z.eqb_eq in E. injection H as H.
    unfold VectorUtils.generateGaussianVector in H.
    pose proof (gaussian_fill_length R center
                  (normal_distribution R zero std_dev) gen) as Hl.
    rewrite H in Hl. cbn [fst] in Hl. lia.
Qed.

(** An instance: the three-record store and the source of zeros. *)
Lemma generated_vectors_validate_witness :
  validateVector db_abc
    (fst (generateRandomVector zero_source db_abc minus_one one 0)) = true.
Proof.
  refine (proj1 (generated_vectors_validate zero_source db_abc minus_one one
                   one origin 0 _)).
  vm_compute. discriminate.
Defined.

(** *** The loops that build the batch *)

Lemma insertRandomVectors_loop_extends
  (R : RandomSource) (db : VectorDatabase) (prefix : string) (n : nat) :
  0 <= dimension_ db ->
  forall i batch gen,
    batch_extends db (ids_from (random_id prefix) i n) batch
      (fst (insertRandomVectors_loop R db prefix n i batch gen)).
Proof.
  intros Hd. induction n as [|n IH]; intros i batch gen;
    cbn [insertRandomVectors_loop ids_from].
  - apply batch_extends_nil.
  - pose proof (generateRandomVector_length R db minus_one one gen Hd) as Hl.
    destruct (generateRandomVector R db minus_one one gen) as [v gen'].
    cbn [fst] in Hl.
    apply (batch_extends_trans db [random_id prefix i]
             (ids_from (random_id prefix) (i + 1) n) batch
             (map_assign (random_id prefix i) v batch)).
    + apply batch_extends_assign. split; cbn [fst snd].
      * apply random_id_nonempty.
      * exact Hl.
    + apply IH.
Qed.

Lemma cluster_loop_extends
  (R : RandomSource) (db : VectorDatabase) (prefix : string)
  (std_dev : float) (c : Z) (center : vec) (n : nat) :
  Z.of_nat (length center) = dimension_ db ->
  forall i batch gen,
    exists batch' gen',
      cluster_loop R db prefix std_dev c center n i batch gen
      = Some (batch', gen')
      /\ batch_extends db (ids_from (cluster_id prefix c) i n) batch batch'.
Proof.
  intros Hc. induction n as [|n IH]; intros i batch gen;
    cbn [cluster_loop ids_from].
  - exists batch, gen. split; [reflexivity | apply batch_extends_nil].
  - destruct (generateGaussianVector_some R db center std_dev gen Hc)
      as (v & gen1 & -> & Hl).
    destruct (IH (i + 1) (map_assign (cluster_id prefix c i) v batch) gen1)
      as (batch' & gen' & E & Hext).
    exists batch', gen'. split; [exact E|].
    apply (batch_extends_trans db [cluster_id prefix c i]
             (ids_from (cluster_id prefix c) (i + 1) n) batch
             (map_assign (cluster_id prefix c i) v batch)).
    + apply batch_extends_assign. split; cbn [fst snd].
      * apply cluster_id_nonempty.
      * exact Hl.
    + exact Hext.
Qed.

Lemma centers_loop_returns
  (R : RandomSource) (db : VectorDatabase) (per : Z) (std_dev : float)
  (prefix : string) (centers : list vec) :
  forall c batch gen,
    exists result gen',
      centers_loop R db per std_dev prefix centers c batch gen
      = Some (result, gen')
      /\ (result = None <-> forallb (validateVector db) centers = false)
      /\ (forall batch', result = Some batch' ->
            batch_extends db (cluster_ids prefix (Z.to_nat per) c centers)
              batch batch').
Proof.
  induction centers as [|center centers IH]; intros c batch gen;
    cbn [centers_loop cluster_ids forallb].
  - exists (Some batch), gen. split; [reflexivity|]. split.
    + split; discriminate.
    + intros batch' E. injection E as <-. apply batch_extends_nil.
  - unfold validateVector at 1.
    destruct (Z.of_nat (length center) =? dimension_ db) eqn:E;
      cbn [negb andb].
    + apply Z.eqb_eq in E.
      destruct (cluster_loop_extends R db prefix std_dev c center
                  (Z.to_nat per) E 0 batch gen)
        as (batch1 & gen1 & -> & Hext1).
      destruct (IH (c + 1) batch1 gen1) as (result & gen' & -> & Hnone & Hsome).
      exists result, gen'. split; [reflexivity|]. split; [exact Hnone|].
      intros batch' Er.
      exact (batch_extends_trans db _ _ batch batch1 batch' Hext1
               (Hsome batch' Er)).
    + exists None, gen. split; [reflexivity|]. split.
      * split; reflexivity.
      * intros batch' Er. discriminate.
Qed.

(** *** Inserting a generated batch *)

Lemma insert_batch_generated
  (L : Layout) (db : VectorDatabase) (ids : list string) (batch : std_map) :
  um_wf (vectors_ db) ->
  batch_extends db ids [] batch -> NoDup ids ->
  size db + Z.of_nat (length ids) < size_t_modulus ->
  let r := insert_batch L db batch in
  fst r = (size db + Z.of_nat (length ids) <=? max_vectors (config_ db))
  /\ (fst r = false -> snd r = db)
  /\ (fst r = true ->
      (forall id, In id ids ->
         exists_ (snd r) id = true
         /\ validateVector db (get_vector (snd r) id) = true)
      /\ (forall id, ~ In id ids ->
            um_find id (vectors_ (snd r)) = um_find id (vectors_ db))
      /\ size db <= size (snd r) <= size db + Z.of_nat (length ids)).
Proof.
  intros Hwf (Hs & Hf & Hk & Hn) Hnd Hfit r.
  assert (Hsorted : map_sorted batch) by (apply Hs; constructor).
  assert (Hvalid : Forall (entry_valid db) batch) by (apply Hf; constructor).
  assert (Hlen : length batch = length ids).
  { rewrite (Hn Hnd) by (intros k _ []). cbn [length]. lia. }
  assert (Hkeys : forall k, In k (map fst batch) <-> In k ids).
  { intros k. rewrite Hk. cbn [map In]. tauto. }
  pose proof (map_sorted_NoDup batch Hsorted) as Hnd'.
  pose proof (size_nonneg db) as Hpos.
  split; [|split].
  - subst r. unfold insert_batch.
    rewrite (proj2 (batch_valid_iff db batch) Hvalid).
    rewrite Hlen, size_t_add_small by lia.
    destruct (Z.gtb_spec (size db + Z.of_nat (length ids))
                (max_vectors (config_ db)));
      destruct (Z.leb_spec (size db + Z.of_nat (length ids))
                  (max_vectors (config_ db))); cbn [fst]; try reflexivity; lia.
  - apply insert_batch_rejected_unchanged.
  - subst r. unfold insert_batch.
    destruct (existsb (batch_pair_invalid db) batch); [discriminate|].
    destruct (size_t_add _ _ >? _); [discriminate|]. intros _.
    cbn [snd]. unfold get_vector, exists_, size. cbn [with_vectors vectors_].
    split; [|split].
    + intros id Hin. apply Hkeys in Hin. apply in_map_iff in Hin.
      destruct Hin as [[k v] [Ek Hin]]. cbn [fst] in Ek. subst k.
      rewrite (assign_all_find_in L id v batch Hnd' Hin (vectors_ db) Hwf).
      split; [reflexivity|]. apply validateVector_iff.
      rewrite Forall_forall in Hvalid. exact (proj2 (Hvalid _ Hin)).
    + intros id Hnot. apply assign_all_find_other; [|exact Hwf].
      intros Hin. apply Hnot. apply Hkeys. exact Hin.
    + split.
      * rewrite (assign_all_size L batch Hnd' (vectors_ db) Hwf). lia.
      * rewrite <- Hlen. apply fold_assign_size_le.
Qed.

(** X26: [insertRandomVectors(count, prefix)] does not depend on what the
    random source yields for its verdict: it returns true exactly when
    [size() + count <= max_vectors]. A refused call leaves the store as it
    was; an accepted one stores a vector of the store's dimension under each
    of the ids [prefix_0] ... [prefix_(count-1)], leaves every other id
    alone and grows the store by at most [count]. *)
Theorem insertRandomVectors_spec
  (R : RandomSource) (L : Layout) (db : VectorDatabase) (count : Z)
  (prefix : string) (gen : engine R) :
  0 <= dimension_ db -> um_wf (vectors_ db) -> 0 <= count ->
  size db + count < size_t_modulus ->
  let r := fst (insertRandomVectors R L db count prefix gen) in
  fst r = (size db + count <=? max_vectors (config_ db))
  /\ (fst r = false -> snd r = db)
  /\ (fst r = true ->
      (forall i, 0 <= i < count ->
         exists_ (snd r) (random_id prefix i) = true
         /\ validateVector db (get_vector (snd r) (random_id prefix i))
            = true)
      /\ (forall id, (forall i, 0 <= i < count -> id <> random_id prefix i) ->
            um_find id (vectors_ (snd r)) = um_find id (vectors_ db))
      /\ size db <= size (snd r) <= size db + count).
Proof.
  intros Hd Hwf Hc Hfit r. subst r. unfold insertRandomVectors.
  pose proof (insertRandomVectors_loop_extends R db prefix (Z.to_nat count)
                Hd 0 [] gen) as Hext.
  destruct (insertRandomVectors_loop R db prefix (Z.to_nat count) 0 [] gen)
    as [batch gen'].
  cbn [fst] in Hext.
  assert (Hnd : NoDup (ids_from (random_id prefix) 0 (Z.to_nat count))).
  { apply ids_from_NoDup; [|lia]. apply random_id_inj. }
  pose proof (insert_batch_generated L db _ batch Hwf Hext Hnd) as H.
  rewrite ids_from_length, Z2Nat.id in H by exact Hc.
  specialize (H Hfit). cbn zeta in H.
  destruct (insert_batch L db batch) as [ok db']. cbn [fst snd] in *.
  destruct H as (H1 & H2 & H3). split; [exact H1|]. split; [exact H2|].
  intros Hok. destruct (H3 Hok) as (H4 & H5 & H6).
  split; [|split].
  - intros i Hi. apply H4. apply ids_from_In. exists i.
    split; [lia | reflexivity].
  - intros id Hid. apply H5. intros Hin. apply ids_from_In in Hin.
    destruct Hin as [j [Hj E]]. apply (Hid j); [lia | exact E].
  - exact H6.
Qed.

(** An instance: two random vectors for the three-record store, which has
    room for them. *)
Lemma insertRandomVectors_spec_witness :
  fst (fst (insertRandomVectors zero_source front_layout db_abc 2 "rand" 0))
  = true.
Proof.
  refine (eq_trans
            (proj1 (insertRandomVectors_spec zero_source front_layout db_abc 2
                      "rand" 0 _ _ _ _)) _).
  - vm_compute. discriminate.
  - apply (wf_keys db_abc db_abc_wf).
  - lia.
  - vm_compute. reflexivity.
  - vm_compute. reflexivity.
Defined.

(** X27: [insertClusteredVectors] never lets the exception of
    [generateGaussianVector] out. It returns false, with the store as it was,
    when some center is not of the store's dimension; when all are, it
    returns true exactly when
    [size() + centers.size() * vectors_per_cluster <= max_vectors], a refused
    call leaves the store as it was, and an accepted one stores a vector of
    the store's dimension under each id [prefix_c_i]. *)
Theorem insertClusteredVectors_spec
  (R : RandomSource) (L : Layout) (db : VectorDatabase) (centers : list vec)
  (vectors_per_cluster : Z) (std_dev : float) (prefix : string)
  (gen : engine R) :
  um_wf (vectors_ db) -> 0 <= vectors_per_cluster ->
  exists ok db' gen',
    insertClusteredVectors R L db centers vectors_per_cluster std_dev prefix
      gen = Some (ok, db', gen')
    /\ (ok = false -> db' = db)
    /\ (forallb (validateVector db) centers = false -> ok = false)
    /\ (forallb (validateVector db) centers = true ->
        size db + Z.of_nat (length centers) * vectors_per_cluster
        < size_t_modulus ->
        ok = (size db + Z.of_nat (length centers) * vectors_per_cluster
              <=? max_vectors (config_ db))
        /\ (ok = true ->
            forall c i,
              0 <= c < Z.of_nat (length centers) ->
              0 <= i < vectors_per_cluster ->
              exists_ db' (cluster_id prefix c i) = true
              /\ validateVector db (get_vector db' (cluster_id prefix c i))
                 = true)).
Proof.
  intros Hwf Hper. unfold insertClusteredVectors.
  destruct (centers_loop_returns R db vectors_per_cluster std_dev prefix
              centers 0 [] gen) as (result & gen' & -> & Hnone & Hsome).
  destruct result as [batch|].
  - specialize (Hsome batch eq_refl).
    assert (Hall : forallb (validateVector db) centers = true).
    { destruct (forallb (validateVector db) centers); [reflexivity|].
      discriminate (proj2 Hnone eq_refl). }
    pose proof (insert_batch_generated L db _ batch Hwf Hsome
                  (cluster_ids_NoDup prefix _ centers 0 (Z.le_refl 0))) as H.
    rewrite cluster_ids_length in H. cbn zeta in H.
    destruct (insert_batch L db batch) as [ok db'] eqn:Eb. cbn [fst snd] in H.
    exists ok, db', gen'. split; [reflexivity|]. split; [|split].
    + intros ->.
      pose proof (insert_batch_rejected_unchanged L db batch) as Hr.
      rewrite Eb in Hr. exact (Hr eq_refl).
    + rewrite Hall. discriminate.
    + intros _ Hfit.
      assert (Hn : Z.of_nat (length centers * Z.to_nat vectors_per_cluster)
                   = Z.of_nat (length centers) * vectors_per_cluster)
        by (rewrite Nat2Z.inj_mul, Z2Nat.id by exact Hper; reflexivity).
      rewrite Hn in H. destruct (H Hfit) as (H1 & _ & H3).
      split; [exact H1|]. intros Hok c i Hc Hi.
      apply (proj1 (H3 Hok)). apply cluster_ids_In. exists c, i.
      repeat split; try lia.
  - exists false, db, gen'. split; [reflexivity|]. split; [reflexivity|].
    split; [reflexivity|].
    intros Hall. rewrite (proj1 Hnone eq_refl) in Hall. discriminate.
Qed.

(** An instance: a center of dimension 1 offered to the store of
    dimension 3. *)
Lemma insertClusteredVectors_spec_witness :
  exists ok db' gen',
    insertClusteredVectors zero_source front_layout db_abc [origin; [one]] 2
      one "cluster" 0 = Some (ok, db', gen')
    /\ ok = false.
Proof.
  destruct (insertClusteredVectors_spec zero_source front_layout db_abc
              [origin; [one]] 2 one "cluster" 0
              (wf_keys db_abc db_abc_wf) ltac:(lia))
    as (ok & db' & gen' & E & _ & Hbad & _).
  exists ok, db', gen'. split; [exact E | apply Hbad; reflexivity].
Defined.
